(** * tetrisrun: key translation, gravity and shutdown of the Tetris driver

    A shallow embedding of [tetrisrun/tetrisrun.go].  The program runs two
    goroutines that share standard output and two unbuffered channels:

    - goroutine A (lines 53-73) forwards translated key presses,
    - the main goroutine B (lines 76-91) injects a drop every [dropRate].

    The sequential code ([writeByte], [readKey], the body of the gravity
    loop) is embedded as functions over an explicit [World].  A send on a
    channel blocks until the other goroutine receives; the functions record
    the start of a send and say what the sender does once it is received.
    Whether and when it is received is the matter of the step function on
    the waiting points of the two goroutines ([Module Sys]), which holds a
    sender at its send until a receive meets it.  Time is not measured: the
    timer of line 79 may fire at any move, and of the input only the delay
    of each arrival is kept, which decides the race of lines 149-172.
    [signal.Ignore(syscall.SIGPIPE)] (line 49) is what makes a write on a
    closed pipe return an error; that error is one of the [fates]. *)

From Stdlib Require Import ZArith List Bool Lia String.
From Stdlib Require Import Strings.Byte.
Import ListNotations.

Local Open Scope Z_scope.

(** ** Durations ([time.Duration]: an int64 count of nanoseconds) *)

Definition Duration := Z.

(** The value an int64 holds after an operation whose exact result is [z]. *)
Definition int64 (z : Z) : Z := (z + 2 ^ 63) mod 2 ^ 64 - 2 ^ 63.

Definition Microsecond : Duration := 1000.
Definition Millisecond : Duration := 1000 * Microsecond.

(* lines 35-40 *)
Definition escTimeout : Duration := 100 * Millisecond.
Definition initialDropRate : Duration := 1000 * Millisecond.
Definition finalDropRate : Duration := 400 * Microsecond.
Definition dropRateDelta : Duration := 1 * Millisecond.

(** ** Errors

    The program tells three kinds of [error] value apart: [io.EOF]
    (line 59), an [*os.PathError] whose [Err] field is [syscall.EPIPE]
    (line 98), and everything else. *)

Inductive error : Type :=
| io_EOF
| Errno (n : Z)                                   (* syscall.Errno *)
| PathError (Op Path : string) (Err : error)      (* *os.PathError *)
| errorString (s : string).                       (* any other error *)

Definition EPIPE : error := Errno 32.

Fixpoint error_eqb (a b : error) : bool :=
  match a, b with
  | io_EOF, io_EOF => true
  | Errno n, Errno m => Z.eqb n m
  | PathError o p e, PathError o' p' e' =>
      String.eqb o o' && String.eqb p p' && error_eqb e e'
  | errorString s, errorString s' => String.eqb s s'
  | _, _ => false
  end.

(** ** Bytes *)

Definition ESC : byte := x1b.

(** ** Channels

    [done] and [pause] are unbuffered [chan bool] (lines 44-45): a send
    blocks until the other goroutine receives. *)

Inductive chan : Type := done | pause.

Definition signal : Type := chan * bool.

(** ** The world outside the program

    [stdin] holds what the terminal will deliver, in order: each arrival is
    a byte or a read error, together with the time that passes between the
    moment the program asks for it and the moment [ReadByte] returns it.
    When [stdin] is empty nothing ever arrives and a read blocks for ever.
    [fates] are the results of the coming writes on standard output
    ([None]: the byte is written); when it is empty every write succeeds.
    [stdout] and [stderr] collect what was written, oldest first.
    [sent] lists the channel sends that were started, oldest first. *)

Record arrival : Type := Arrive { gap : Duration; item : byte + error }.

Definition byteAt (g : Duration) (b : byte) : arrival := Arrive g (inl b).
Definition errAt (g : Duration) (e : error) : arrival := Arrive g (inr e).

Record World : Type := mkWorld {
  stdin : list arrival;
  fates : list (option error);
  stdout : list byte;
  stderr : list error;
  sent : list signal
}.

Definition set_stdin (l : list arrival) (w : World) : World :=
  mkWorld l (fates w) (stdout w) (stderr w) (sent w).

Definition set_sent (l : list signal) (w : World) : World :=
  mkWorld (stdin w) (fates w) (stdout w) (stderr w) l.

(** [fmt.Fprintln(os.Stderr, err)] *)
Definition Fprintln (err : error) (w : World) : World :=
  mkWorld (stdin w) (fates w) (stdout w) (stderr w ++ [err]) (sent w).

(** [os.Stdout.Write([]byte{b})]: the error, if any; on an error no byte
    is written. *)
Definition Write (b : byte) (w : World) : option error * World :=
  match fates w with
  | [] => (None, mkWorld (stdin w) [] (stdout w ++ [b]) (stderr w) (sent w))
  | None :: f => (None, mkWorld (stdin w) f (stdout w ++ [b]) (stderr w) (sent w))
  | Some err :: f => (Some err, mkWorld (stdin w) f (stdout w) (stderr w) (sent w))
  end.

(** [c <- v], seen from the sender: the start of the send is recorded.
    The channels are unbuffered, so the sender goes on only when the other
    goroutine receives; the functions below say what the sender does then,
    and [Sys] holds it at the send until the receive. *)
Definition send (c : chan) (v : bool) (w : World) : World :=
  set_sent (sent w ++ [(c, v)]) w.

(** A call either returns or stays blocked for ever in a read. *)
Inductive returns (A : Type) : Type :=
| Return (a : A)
| Never.
Arguments Return {A} a.
Arguments Never {A}.

(** ** writeByte (lines 94-105) *)

(** The test of line 98, negated: the error is an [*os.PathError] whose
    [Err] is [syscall.EPIPE], and is not printed. *)
Definition brokenPipe (err : error) : bool :=
  match err with
  | PathError _ _ pe_Err => error_eqb pe_Err EPIPE
  | _ => false
  end.

(** Lines 95-100: the write and the report of its error. *)
Definition writeOut (b : byte) (w : World) : bool * World :=
  match Write b w with
  | (Some err, w) =>
      let w := if negb (brokenPipe err) then Fprintln err w else w in
      (false, w)
  | (None, w) => (true, w)
  end.

(** The call as far as its send: [(true, w)] is the call returned with
    [true]; [(false, w)] is the call in the send of line 101, which it has
    started, with [false] to return once the send is received. *)
Definition writeByte (b : byte) (w : World) : bool * World :=
  let '(ok, w) := writeOut b w in
  if ok then (true, w)
  else
    let w := send done true w in          (* line 101 *)
    (false, w).

(** ** readKey (lines 110-175) *)

(** What the switch of line 116 does with the byte read at line 112. *)
Inductive action : Type :=
| Key (k : byte)     (* return k, nil *)
| Quit               (* return 0, io.EOF *)
| Pause              (* lines 128-138 *)
| Escape             (* lines 143-172 *)
| Skip.              (* no case: read again *)

Definition keySwitch (b : byte) : action :=
  match b with
  | "i" | "w" => Key "i"
  | "j" | "a" => Key "j"
  | "k" | "s" => Key "k"
  | "l" | "d" => Key "l"
  | "q" | x00 | x03 | x04 | x1a => Quit
  | "p" | " " => Pause
  | x1b => Escape
  | _ => Skip
  end%byte.

(** Line 134. *)
Definition isPauseKey (b : byte) : bool :=
  Byte.eqb b "p" || Byte.eqb b " ".

(** Line 147: the value sent on [readBracket]. *)
Definition isBracket (r : byte + error) : bool :=
  match r with
  | inl b => Byte.eqb b "["
  | inr _ => false
  end.

(** The switch of line 159; [None] when no case matches. *)
Definition arrowSwitch (b : byte) : option byte :=
  match b with
  | "A" => Some "i"
  | "B" => Some "k"
  | "C" => Some "l"
  | "D" => Some "j"
  | _ => None
  end%byte.

Definition result : Type := returns (byte * option error).

(** [readKeyAt] is the function from its first read (line 112) on;
    [pauseLoop], [escape] and [arrow] are the function from the reads of
    lines 130, 146 and 155 on.  Each consumes the arrival it reads, so the
    four are defined together by recursion on [stdin].  The result comes
    with the remaining input and the sends on [pause], which are taken
    to be received (by [main], at lines 86 and 87); [Sys] holds goroutine A
    at each until it is.

    In [escape] the read of line 146 races with the timer of line 170
    (lines 149-172): the read wins when the next arrival comes before
    [escTimeout]; the timer wins when it comes later or never (at the very
    instant of the timeout Go may pick either case; the timer is taken).
    When the timer wins the pending arrival is left in [stdin]: the
    abandoned reader of line 146 takes it later, and [readKey] is not
    called again. *)
Fixpoint readKeyAt (stdin : list arrival) (sent : list signal) {struct stdin}
  : result * list arrival * list signal :=
  match stdin with
  | [] => (Never, [], sent)
  | a :: stdin =>
      match item a with
      | inr err => (Return (x00, Some err), stdin, sent)
      | inl b =>
          match keySwitch b with
          | Key k => (Return (k, None), stdin, sent)
          | Quit => (Return (x00, Some io_EOF), stdin, sent)
          | Pause => pauseLoop stdin (sent ++ [(pause, true)])
          | Escape => escape stdin sent
          | Skip => readKeyAt stdin sent
          end
      end
  end
with pauseLoop (stdin : list arrival) (sent : list signal) {struct stdin}
  : result * list arrival * list signal :=
  match stdin with
  | [] => (Never, [], sent)
  | a :: stdin =>
      match item a with
      | inr err => (Return (x00, Some err), stdin, sent)
      | inl b =>
          if isPauseKey b
          then readKeyAt stdin (sent ++ [(pause, false)])
          else pauseLoop stdin sent
      end
  end
with escape (stdin : list arrival) (sent : list signal) {struct stdin}
  : result * list arrival * list signal :=
  match stdin with
  | [] => (Return (x00, Some io_EOF), [], sent)
  | a :: stdin' =>
      if gap a <? escTimeout then
        if negb (isBracket (item a))
        then (Return (x00, Some io_EOF), stdin', sent)
        else arrow stdin' sent
      else (Return (x00, Some io_EOF), a :: stdin', sent)
  end
with arrow (stdin : list arrival) (sent : list signal) {struct stdin}
  : result * list arrival * list signal :=
  match stdin with
  | [] => (Never, [], sent)
  | a :: stdin =>
      match item a with
      | inr err => (Return (x00, Some err), stdin, sent)
      | inl b =>
          match arrowSwitch b with
          | Some k => (Return (k, None), stdin, sent)
          | None => readKeyAt stdin sent
          end
      end
  end.

Definition readKey (w : World) : result * World :=
  let '(r, stdin', sent') := readKeyAt (stdin w) (sent w) in
  (r, set_sent sent' (set_stdin stdin' w)).

(** ** Goroutine A: the way out (lines 58-63) *)

(** Lines 59-62: the report of the read error and the final ESC. *)
Definition quit (err : error) (w : World) : bool * World :=
  let w := if negb (error_eqb err io_EOF) then Fprintln err w else w in
  writeByte ESC w.

(** ** Goroutine B: gravity (lines 76-91) *)

(** Lines 83-85. *)
Definition nextDropRate (dropRate : Duration) : Duration :=
  if dropRate >? finalDropRate then int64 (dropRate - dropRateDelta)
  else dropRate.

(** Lines 79-85, the timer case of the select: [false] when the write
    failed, so that [main] is in the send of line 101 and leaves the loop
    by [break Drop] once it is received. *)
Definition drop (dropRate : Duration) (w : World) : bool * Duration * World :=
  let '(ok, w) := writeByte "k" w in
  if negb ok then (false, dropRate, w)
  else (true, nextDropRate dropRate, w).

(** [n] turns of the loop in which the timer case is taken every time (no
    pause, no shutdown from goroutine A). *)
Fixpoint ticks (n : nat) (dropRate : Duration) (w : World)
  : bool * Duration * World :=
  match n with
  | O => (true, dropRate, w)
  | S n =>
      let '(go, dropRate, w) := drop dropRate w in
      if go then ticks n dropRate w else (false, dropRate, w)
  end.

(** ** The two goroutines together

    A state holds the world, where each goroutine stands, and [dropRate]
    (a local of [main], line 50).  A goroutine stands at a point where it
    may have to wait: a read of [stdin], a channel operation, a select.
    In [sent] a send is recorded when it starts; the sender then stands at
    the send until a receive meets it. *)

Module Sys.

(** The reads of [readKey]. *)
Inductive site : Type :=
| AtKey          (* line 112 *)
| AtPause        (* line 130 *)
| AtBracket      (* line 146, racing with the timer of line 170 *)
| AtArrow.       (* line 155 *)

(** Goroutine A. *)
Inductive fpc : Type :=
| FSelect                (* line 55 *)
| FRead (at_ : site)     (* line 57, inside readKey *)
| FPause (v : bool)      (* in [pause <- v], line 128 or 138 *)
| FDoneKey               (* in [done <- true], line 101, called from line 66 *)
| FDoneEsc               (* in [done <- true], line 101, called from line 62 *)
| FDone                  (* in [done <- true], line 63 *)
| FReturned.             (* lines 64, 67, 70 *)

(** Goroutine B, [main]. *)
Inductive gpc : Type :=
| GSelect                (* line 78 *)
| GPaused                (* line 87 *)
| GDone                  (* in [done <- true], line 101, called from line 80 *)
| GReturned.             (* after the loop: [main] returns, the process ends *)

Record State : Type := mkState {
  world : World;
  forwarding : fpc;
  gravity : gpc;
  dropRate : Duration
}.

Definition init (w : World) : State :=
  mkState w FSelect GSelect initialDropRate.

(** Lines 66-68, once [readKey] has returned [key]. *)
Definition gotKey (key : byte) (w : World) : fpc * World :=
  let '(ok, w) := writeByte key w in
  if negb ok then (FDoneKey, w) else (FSelect, w).

(** Lines 58-63, once [readKey] has returned [err]. *)
Definition gotErr (err : error) (w : World) : fpc * World :=
  let '(ok, w) := quit err w in
  if ok then (FDone, send done true w) else (FDoneEsc, w).

(** Goroutine A at a read of [readKey], up to its next waiting point;
    [None] when nothing arrives. *)
Definition read (at_ : site) (w : World) : option (fpc * World) :=
  match at_, stdin w with
  | AtBracket, [] => Some (gotErr io_EOF w)                 (* line 171 *)
  | AtBracket, a :: rest =>
      if gap a <? escTimeout then
        let w := set_stdin rest w in
        if negb (isBracket (item a))
        then Some (gotErr io_EOF w)                         (* line 153 *)
        else Some (FRead AtArrow, w)
      else Some (gotErr io_EOF w)                           (* line 171 *)
  | _, [] => None
  | AtKey, a :: rest =>
      let w := set_stdin rest w in
      match item a with
      | inr err => Some (gotErr err w)
      | inl b =>
          match keySwitch b with
          | Key k => Some (gotKey k w)
          | Quit => Some (gotErr io_EOF w)
          | Pause => Some (FPause true, send pause true w)
          | Escape => Some (FRead AtBracket, w)
          | Skip => Some (FRead AtKey, w)
          end
      end
  | AtPause, a :: rest =>
      let w := set_stdin rest w in
      match item a with
      | inr err => Some (gotErr err w)
      | inl b =>
          if isPauseKey b
          then Some (FPause false, send pause false w)
          else Some (FRead AtPause, w)
      end
  | AtArrow, a :: rest =>
      let w := set_stdin rest w in
      match item a with
      | inr err => Some (gotErr err w)
      | inl b =>
          match arrowSwitch b with
          | Some k => Some (gotKey k w)
          | None => Some (FRead AtKey, w)
          end
      end
  end.

Inductive move : Type :=
| Forward          (* goroutine A runs on to its next waiting point *)
| Timer            (* the timer of line 79 fires; goroutine B runs lines 80-85 *)
| Sync (c : chan). (* a send and a receive on [c] meet *)

(** Goroutine A alone.  In the select of line 55 the default case is taken
    only when no send on [done] is waiting. *)
Definition forwardStep (s : State) : option State :=
  match forwarding s with
  | FSelect =>
      match gravity s with
      | GDone => None
      | _ => Some (mkState (world s) (FRead AtKey) (gravity s) (dropRate s))
      end
  | FRead at_ =>
      match read at_ (world s) with
      | Some (pc, w) => Some (mkState w pc (gravity s) (dropRate s))
      | None => None
      end
  | _ => None
  end.

(** The timer case of the select of line 78. *)
Definition timerStep (s : State) : option State :=
  match gravity s with
  | GSelect =>
      let '(go, d, w) := drop (dropRate s) (world s) in
      Some (mkState w (forwarding s) (if go then GSelect else GDone) d)
  | _ => None
  end.

(** [pause]: goroutine A sends (lines 128, 138), goroutine B receives
    (lines 86, 87). *)
Definition pauseStep (s : State) : option State :=
  match forwarding s with
  | FPause v =>
      let pc := FRead (if v then AtPause else AtKey) in
      match gravity s with
      | GSelect => Some (mkState (world s) pc GPaused (dropRate s))
      | GPaused => Some (mkState (world s) pc GSelect (dropRate s))
      | _ => None
      end
  | _ => None
  end.

(** [done]: either goroutine sends (lines 63, 101); goroutine A receives
    at line 69, goroutine B at line 88. *)
Definition doneStep (s : State) : option State :=
  match gravity s, forwarding s with
  | GSelect, FDoneKey =>
      Some (mkState (world s) FReturned GReturned (dropRate s))
  | GSelect, FDoneEsc =>
      Some (mkState (send done true (world s)) FDone GReturned (dropRate s))
  | GSelect, FDone =>
      Some (mkState (world s) FReturned GReturned (dropRate s))
  | GDone, FSelect =>
      Some (mkState (world s) FReturned GReturned (dropRate s))
  | _, _ => None
  end.

(** One move of the program; nothing moves once [main] has returned. *)
Definition step (m : move) (s : State) : option State :=
  match gravity s with
  | GReturned => None
  | _ =>
      match m with
      | Forward => forwardStep s
      | Timer => timerStep s
      | Sync pause => pauseStep s
      | Sync done => doneStep s
      end
  end.

Fixpoint run (ms : list move) (s : State) : option State :=
  match ms with
  | [] => Some s
  | m :: ms =>
      match step m s with
      | Some s => run ms s
      | None => None
      end
  end.

(** The state is one that the program started in world [w] can be in. *)
Definition reachable (w : World) (s : State) : Prop :=
  exists ms, run ms (init w) = Some s.

(** No move is possible although [main] has not returned. *)
Definition deadlocked (s : State) : Prop :=
  gravity s <> GReturned /\ forall m, step m s = None.

(** A send on [done] has started. *)
Definition shutdownSignalled (s : State) : Prop :=
  In (done, true) (sent (world s)).

(** The function of [readKeyAt] that starts at the read [at_]. *)
Definition reader (at_ : site)
  : list arrival -> list signal -> result * list arrival * list signal :=
  match at_ with
  | AtKey => readKeyAt
  | AtPause => pauseLoop
  | AtBracket => escape
  | AtArrow => arrow
  end.

(** Where goroutine B stands while goroutine A is at the read [at_], when
    it has received every send on [pause] and is not in a drop. *)
Definition receiver (at_ : site) : gpc :=
  match at_ with
  | AtPause => GPaused
  | _ => GSelect
  end.

(** The state [s] is the one in which [readKey], called in world [w] with
    the result [r] and the world [w1] after it, leaves goroutine A: past
    lines 66-68 with a key, past lines 58-63 with an error, in a read with
    no input left when the call never returns. *)
Definition landed (r : result) (w1 : World) (d : Duration) (s : State) : Prop :=
  dropRate s = d /\
  match r with
  | Return (k, None) =>
      s = mkState (snd (gotKey k w1)) (fst (gotKey k w1)) GSelect d
  | Return (_, Some err) =>
      world s = snd (gotErr err w1) /\ forwarding s = fst (gotErr err w1)
  | Never =>
      world s = w1 /\ stdin w1 = [] /\ exists at_, forwarding s = FRead at_
  end.

(** From the read [at_] on, with [input] to come, the moves of goroutine A
    and the receives of [pause] lead where [reader at_] says. *)
Definition agrees (input : list arrival) (at_ : site) : Prop :=
  forall f o e sn d,
    exists (ms : list move) (s : State),
      ~ In Timer ms /\
      run ms (mkState (mkWorld input f o e sn) (FRead at_) (receiver at_) d)
      = Some s /\
      landed (fst (fst (reader at_ input sn)))
        (mkWorld (snd (fst (reader at_ input sn))) f o e
           (snd (reader at_ input sn))) d s.

(** The states of the program on the input [p], end of file, when every
    write succeeds. *)
Definition pausedAtEOF (s : State) : Prop :=
  fates (world s) = [] /\
  In (forwarding s, gravity s, stdin (world s))
    [(FSelect, GSelect, [byteAt 0 "p"%byte; errAt 0 io_EOF]);
     (FRead AtKey, GSelect, [byteAt 0 "p"%byte; errAt 0 io_EOF]);
     (FPause true, GSelect, [errAt 0 io_EOF]);
     (FRead AtPause, GPaused, [errAt 0 io_EOF]);
     (FDone, GPaused, [])].

End Sys.

(** ** Vocabulary of the properties *)


(** The four commands [readKey] can return. *)
Definition commands : list byte := ["i"; "j"; "k"; "l"]%byte.

(** The bytes of the protocol on standard output. *)
Definition wire : list byte := ["i"; "j"; "k"; "l"; x1b]%byte.

(** The next arrival comes before [d] has passed. *)
Definition arrivesWithin (d : Duration) (stdin : list arrival) : Prop :=
  exists a rest, stdin = a :: rest /\ gap a < d.

(** [p] or space. *)
Definition pauseKey (b : byte) : Prop := (b = "p" \/ b = " ")%byte.

(** An arrival that is a byte, and not a pause key. *)
Definition plainByte (a : arrival) : Prop :=
  exists b, item a = inl b /\ ~ pauseKey b.

(** The error of a write on a pipe whose reader is gone. *)
Definition isBrokenPipe (err : error) : Prop :=
  exists op path, err = PathError op path EPIPE.

(** A world with the given input in which nothing has happened yet and
    every write succeeds. *)
Definition fresh (input : list arrival) : World :=
  mkWorld input [] [] [] [].

(** The interval the specification gives after [n] drops:
    [max(1000 - n, 0.4)] milliseconds. *)
Definition specDropRate (n : nat) : Duration :=
  Z.max ((1000 - Z.of_nat n) * Millisecond) (400 * Microsecond).

(** From [w] to [w'] standard output grew, and only by bytes of the
    protocol. *)
Definition writes (w w' : World) : Prop :=
  exists out, stdout w' = stdout w ++ out /\ Forall (fun b => In b wire) out.

(** [n] pauses entered and left, and one more entered when [open]: the
    sends on [pause] they make. *)
Definition pauses (n : nat) (open : bool) : list signal :=
  List.concat (repeat [(pause, true); (pause, false)] n)
  ++ (if open then [(pause, true)] else []).

(** Every write to come succeeds. *)
Definition allSucceed (w : World) : Prop :=
  Forall (fun fate => fate = None) (fates w).

(** The number of times the timer fires in a schedule. *)
Definition timers (ms : list Sys.move) : nat :=
  List.length (filter (fun m => match m with Sys.Timer => true | _ => false end) ms).

(** An error the program has cause to print, in world [w]: a read error
    of the input other than [io.EOF], or the error of a write other than
    the broken pipe. *)
Definition reported (w : World) (err : error) : Prop :=
  (In (inr err) (map item (stdin w)) /\ err <> io_EOF) \/
  (In (Some err) (fates w) /\ ~ isBrokenPipe err).

(** From [w] to [w'] input was read in order, writes were tried in order,
    and standard error grew by errors [reported] in [w] only. *)
Definition evolves (w w' : World) : Prop :=
  (exists taken, stdin w = taken ++ stdin w') /\
  (exists tried, fates w = tried ++ fates w') /\
  (exists log, stderr w' = stderr w ++ log /\ Forall (reported w) log).

(** What one read of goroutine A in the step function can lead to. *)
Inductive readCase (at_ : Sys.site) (w : World) : Sys.fpc * World -> Prop :=
| readKeyCase (k : byte) (a : arrival) (rest : list arrival) :
    stdin w = a :: rest -> In k commands -> at_ <> Sys.AtPause ->
    readCase at_ w (Sys.gotKey k (set_stdin rest w))
| readErrCase (err : error) (a : arrival) (rest : list arrival) :
    stdin w = a :: rest -> item a = inr err ->
    readCase at_ w (Sys.gotErr err (set_stdin rest w))
| readQuitCase (a : arrival) (rest : list arrival) :
    stdin w = a :: rest -> at_ <> Sys.AtPause ->
    readCase at_ w (Sys.gotErr io_EOF (set_stdin rest w))
| readTimeoutCase :
    at_ = Sys.AtBracket ->
    readCase at_ w (Sys.gotErr io_EOF w)
| readNextCase (at' : Sys.site) (a : arrival) (rest : list arrival) :
    stdin w = a :: rest -> (at' = Sys.AtPause <-> at_ = Sys.AtPause) ->
    readCase at_ w (Sys.FRead at', set_stdin rest w)
| readPauseCase (a : arrival) (rest : list arrival) :
    stdin w = a :: rest ->
    readCase at_ w
      (Sys.FPause (match at_ with Sys.AtPause => false | _ => true end),
       send pause (match at_ with Sys.AtPause => false | _ => true end)
         (set_stdin rest w)).

(** Where the two goroutines can stand together. *)
Definition together (f : Sys.fpc) (g : Sys.gpc) : bool :=
  match f, g with
  | Sys.FReturned, Sys.GReturned => true
  | Sys.FReturned, _ => false
  | Sys.FDone, _ => true
  | _, Sys.GReturned => false
  | Sys.FRead Sys.AtPause, Sys.GPaused => true
  | Sys.FPause false, Sys.GPaused => true
  | Sys.FDoneEsc, Sys.GPaused => true
  | Sys.FRead Sys.AtPause, _ => false
  | Sys.FPause false, _ => false
  | _, Sys.GPaused => false
  | _, _ => true
  end.

(** Where the two goroutines can stand together while every write
    succeeds. *)
Definition togetherCalm (f : Sys.fpc) (g : Sys.gpc) : bool :=
  match f, g with
  | Sys.FReturned, Sys.GReturned => true
  | Sys.FDone, Sys.GSelect => true
  | Sys.FDone, Sys.GPaused => true
  | Sys.FRead Sys.AtPause, Sys.GPaused => true
  | Sys.FPause false, Sys.GPaused => true
  | Sys.FRead Sys.AtPause, _ => false
  | Sys.FPause false, _ => false
  | Sys.FSelect, Sys.GSelect => true
  | Sys.FRead _, Sys.GSelect => true
  | Sys.FPause true, Sys.GSelect => true
  | _, _ => false
  end.

(** [main] is in the send of line 101 after a failed drop, goroutine A is
    not at its select, and the pipe stays closed for the write goroutine A
    may still try. *)
Definition heldInSend (s : Sys.State) : Prop :=
  Sys.gravity s = Sys.GDone /\
  match Sys.forwarding s with
  | Sys.FSelect | Sys.FReturned => False
  | Sys.FRead _ => exists err f, fates (Sys.world s) = Some err :: f
  | _ => True
  end.

(** The number of moves other than the timer in a schedule. *)
Definition moves (ms : list Sys.move) : nat :=
  List.length (filter (fun m => match m with Sys.Timer => false | _ => true end) ms).

(** The world after [t] drops that succeed. *)
Definition dropped (t : nat) (w : World) : World :=
  mkWorld (stdin w) (Nat.iter t (@tl (option error)) (fates w))
    (stdout w ++ repeat "k"%byte t) (stderr w) (sent w).

(** Where the program stands after [n] moves other than the timer and [t]
    drops that succeed, from goroutine A at the read of line 112 and
    [main] at its select, with the arrival [p], then [mid], then [z], then
    [rest] to come: [p] a pause key, [mid] without one, [z] a pause key or
    a read error. *)
Definition pausing (w : World) (d : Duration) (p z : arrival)
    (mid rest : list arrival) (n t : nat) : Sys.State :=
  let d' := Nat.iter t nextDropRate d in
  match n with
  | O =>
      Sys.mkState (dropped t (set_stdin (p :: mid ++ z :: rest) w))
        (Sys.FRead Sys.AtKey) Sys.GSelect d'
  | S O =>
      Sys.mkState
        (dropped t (send pause true (set_stdin (mid ++ z :: rest) w)))
        (Sys.FPause true) Sys.GSelect d'
  | S (S i) =>
      if (i <=? List.length mid)%nat then
        Sys.mkState
          (dropped t (send pause true (set_stdin (skipn i mid ++ z :: rest) w)))
          (Sys.FRead Sys.AtPause) Sys.GPaused d'
      else
        match item z with
        | inr err =>
            let w' := dropped t (send pause true (set_stdin rest w)) in
            Sys.mkState (snd (Sys.gotErr err w')) (fst (Sys.gotErr err w'))
              Sys.GPaused d'
        | inl _ =>
            let w' :=
              dropped t (send pause false (send pause true (set_stdin rest w)))
            in
            if (i =? S (List.length mid))%nat
            then Sys.mkState w' (Sys.FPause false) Sys.GPaused d'
            else Sys.mkState w' (Sys.FRead Sys.AtKey) Sys.GSelect d'
        end
  end.

(** The number of moves other than the timer that the pause takes. *)
Definition pauseLength (z : arrival) (mid : list arrival) : nat :=
  match item z with
  | inl _ => List.length mid + 4
  | inr _ => List.length mid + 3
  end.

(** The one move other than the timer that is possible after [n]. *)
Definition pauseMove (mid : list arrival) (n : nat) : Sys.move :=
  if ((n =? 1) || (n =? List.length mid + 3))%nat then Sys.Sync pause
  else Sys.Forward.

(** * Properties *)

(** ** Helpers *)

Lemma error_eqb_eq (a b : error) : error_eqb a b = true <-> a = b.
Proof.
  revert b; induction a as [|n|o p e IH|s]; intros [|m|o' p' e'|s']; simpl;
    split; try congruence; try reflexivity.
  - intros H; apply Z.eqb_eq in H; congruence.
  - intros H; injection H as ->; apply Z.eqb_refl.
  - intros H. apply andb_true_iff in H as [H He].
    apply andb_true_iff in H as [Ho Hp].
    apply String.eqb_eq in Ho, Hp. apply IH in He. congruence.
  - intros H; injection H as -> -> ->.
    rewrite !String.eqb_refl. simpl. apply IH. reflexivity.
  - intros H; apply String.eqb_eq in H; congruence.
  - intros H; injection H as ->; apply String.eqb_refl.
Qed.

Lemma readKey_eq (w : World) :
  readKey w =
  (fst (fst (readKeyAt (stdin w) (sent w))),
   set_sent (snd (readKeyAt (stdin w) (sent w)))
     (set_stdin (snd (fst (readKeyAt (stdin w) (sent w)))) w)).
Proof.
  unfold readKey. destruct (readKeyAt (stdin w) (sent w)) as [[r i] o].
  reflexivity.
Qed.

(** ** C4 *)

(** C4: the aliases [i w], [j a], [k s], [l d] are translated to [i], [j],
    [k], [l]; the result depends on the byte alone: not on its timing, on
    the input after it, or on the rest of the world, which is left as it
    is. *)
Theorem readKey_alias (b k : byte) (g : Duration) (rest : list arrival)
    (w : World) :
  In (b, k) [("i", "i"); ("w", "i"); ("j", "j"); ("a", "j");
             ("k", "k"); ("s", "k"); ("l", "l"); ("d", "l")]%byte ->
  readKey (set_stdin (byteAt g b :: rest) w)
  = (Return (k, None), set_stdin rest w).
Proof.
  intros H. simpl in H.
  repeat (destruct H as [H|H]; [injection H as <- <-; reflexivity|]).
  destruct H.
Qed.

Lemma readKey_alias_witness :
  readKey (set_stdin [byteAt 0 "w"; byteAt 7 "x"] (fresh []))
  = (Return ("i", None), set_stdin [byteAt 7 "x"] (fresh []))%byte.
Proof.
  apply (readKey_alias "w" "i" 0 [byteAt 7 "x"] (fresh [])).
  simpl. right. left. reflexivity.
Defined.

(** ** C10 *)

Lemma keySwitch_commands (b k : byte) : keySwitch b = Key k -> In k commands.
Proof.
  destruct b; simpl; intros H; try discriminate H;
    injection H as <-; simpl; intuition congruence.
Qed.

Lemma arrowSwitch_commands (b k : byte) :
  arrowSwitch b = Some k -> In k commands.
Proof.
  destruct b; simpl; intros H; try discriminate H;
    injection H as <-; simpl; intuition congruence.
Qed.





(** ** C3 and C9 *)

(** C3: after ESC, when the next byte comes before the escape timeout and
    is [[], the byte after it chooses the command: [A] rotate, [B] drop,
    [C] right, [D] left; when nothing comes before the timeout, [readKey]
    fails with [io.EOF]. *)
Theorem readKey_escape :
  (forall (c k : byte) (g0 g1 g2 : Duration) (rest : list arrival) (w : World),
     g1 < escTimeout ->
     In (c, k) [("A", "i"); ("B", "k"); ("C", "l"); ("D", "j")]%byte ->
     readKey (set_stdin (byteAt g0 ESC :: byteAt g1 "[" :: byteAt g2 c :: rest) w)
     = (Return (k, None), set_stdin rest w)) /\
  (forall (g0 : Duration) (rest : list arrival) (w : World),
     ~ arrivesWithin escTimeout rest ->
     readKey (set_stdin (byteAt g0 ESC :: rest) w)
     = (Return (x00, Some io_EOF), set_stdin rest w)).
Proof.
  split.
  - intros c k g0 g1 g2 rest w Hg H.
    apply Z.ltb_lt in Hg. unfold readKey. simpl. rewrite Hg. simpl in *.
    repeat (destruct H as [H|H]; [injection H as <- <-; reflexivity|]).
    destruct H.
  - intros g0 rest w H. unfold readKey. simpl.
    destruct rest as [|a rest]; [reflexivity|]. simpl.
    destruct (Z.ltb_spec (gap a) escTimeout) as [Hlt|Hge]; [|reflexivity].
    exfalso. apply H. exists a, rest. split; [reflexivity|exact Hlt].
Qed.

Lemma readKey_escape_witness :
  readKey (set_stdin [byteAt 0 ESC; byteAt 20 "["; byteAt 0 "D"] (fresh []))
  = (Return ("j", None), fresh [])%byte /\
  readKey (set_stdin [byteAt 0 ESC; byteAt (150 * Millisecond) "["] (fresh []))
  = (Return (x00, Some io_EOF), fresh [byteAt (150 * Millisecond) "["])%byte.
Proof.
  split.
  - apply (proj1 readKey_escape "D" "j" 0 20 0 [] (fresh []))%byte.
    + reflexivity.
    + simpl. intuition congruence.
  - apply (proj2 readKey_escape 0 [byteAt (150 * Millisecond) "["%byte] (fresh [])).
    intros (a & rest & E & Hlt). injection E as <- _. discriminate Hlt.
Defined.

(** C9: after ESC, when the next arrival comes before the escape timeout
    and is not the byte [[] (another byte, or a read error), [readKey]
    takes it and fails with [io.EOF]. *)
Theorem readKey_escape_other (g0 : Duration) (a : arrival)
    (rest : list arrival) (w : World) :
  gap a < escTimeout ->
  item a <> inl "["%byte ->
  readKey (set_stdin (byteAt g0 ESC :: a :: rest) w)
  = (Return (x00, Some io_EOF), set_stdin rest w).
Proof.
  intros Hg Hb. apply Z.ltb_lt in Hg. unfold readKey. simpl. rewrite Hg.
  destruct (item a) as [b|err]; simpl; [|reflexivity].
  destruct (Byte.eqb b "[") eqn:E; [|reflexivity].
  exfalso. apply Hb. f_equal.
  destruct b; try discriminate E; reflexivity.
Qed.

Lemma readKey_escape_other_witness :
  readKey (set_stdin [byteAt 0 ESC; byteAt 3 "O"; byteAt 0 "i"] (fresh []))
  = (Return (x00, Some io_EOF), fresh [byteAt 0 "i"])%byte /\
  readKey (set_stdin [byteAt 0 ESC; errAt 3 (errorString "input/output error")]
             (fresh []))
  = (Return (x00, Some io_EOF), fresh []).
Proof.
  split.
  - apply (readKey_escape_other 0 (byteAt 3 "O") [byteAt 0 "i"] (fresh []))%byte.
    + reflexivity.
    + discriminate.
  - apply (readKey_escape_other 0 (errAt 3 (errorString "input/output error"))
             [] (fresh [])).
    + reflexivity.
    + discriminate.
Defined.

(** ** readKey and the pause, while the sends are received *)

Lemma isPauseKey_true (b : byte) : pauseKey b -> isPauseKey b = true.
Proof. intros [-> | ->]; reflexivity. Qed.

Lemma isPauseKey_false (b : byte) : ~ pauseKey b -> isPauseKey b = false.
Proof.
  intros H. destruct b; try reflexivity; exfalso; apply H;
    [right|left]; reflexivity.
Qed.

Lemma keySwitch_pause (b : byte) : pauseKey b -> keySwitch b = Pause.
Proof. intros [-> | ->]; reflexivity. Qed.

(** The loop of lines 129-137 drops the bytes that are no pause key. *)
Lemma pauseLoop_discards (mid tail : list arrival) (sn : list signal) :
  Forall plainByte mid -> pauseLoop (mid ++ tail) sn = pauseLoop tail sn.
Proof.
  induction 1 as [|a mid (b & Hb & Hp) _ IH]; [reflexivity|].
  simpl. rewrite Hb, (isPauseKey_false b Hp). exact IH.
Qed.

(** While [main] takes its sends: on a pause key [readKey] sends [true] on
    [pause], drops every byte up to the next pause key, sends [false] on
    [pause] and goes on with the input after it as it would have without
    the pause; a read error met while dropping is the error it returns. *)
Lemma readKey_pause (p1 : byte) (g1 : Duration) (mid rest : list arrival)
    (w : World) :
  pauseKey p1 ->
  Forall plainByte mid ->
  (forall (p2 : byte) (g2 : Duration),
     pauseKey p2 ->
     readKey (set_stdin (byteAt g1 p1 :: mid ++ byteAt g2 p2 :: rest) w)
     = readKey (set_stdin rest (send pause false (send pause true w)))) /\
  (forall (err : error) (g2 : Duration),
     readKey (set_stdin (byteAt g1 p1 :: mid ++ errAt g2 err :: rest) w)
     = (Return (x00, Some err), set_stdin rest (send pause true w))).
Proof.
  intros H1 Hmid. split.
  - intros p2 g2 H2. unfold readKey. simpl.
    rewrite (keySwitch_pause p1 H1), (pauseLoop_discards _ _ _ Hmid).
    simpl. rewrite (isPauseKey_true p2 H2). reflexivity.
  - intros err g2. unfold readKey. simpl.
    rewrite (keySwitch_pause p1 H1), (pauseLoop_discards _ _ _ Hmid).
    reflexivity.
Qed.

(** ** writeByte, as far as its send *)

Lemma brokenPipe_true (err : error) : isBrokenPipe err -> brokenPipe err = true.
Proof. intros (op & path & ->). reflexivity. Qed.

Lemma brokenPipe_false (err : error) :
  ~ isBrokenPipe err -> brokenPipe err = false.
Proof.
  intros H. destruct err as [|n|op path e|s]; try reflexivity.
  simpl. destruct (error_eqb e EPIPE) eqn:E; [|reflexivity].
  apply error_eqb_eq in E. subst e. exfalso. apply H. exists op, path.
  reflexivity.
Qed.

(** X16: [writeByte] as far as its send: after a write that succeeds it
    returns [true], the byte is written and nothing is sent; after a write
    that fails nothing is written, the error is printed on standard error
    unless it is the broken-pipe error, and the send on [done] starts. *)
Theorem writeByte_cases (b : byte) (w : World) :
  (hd None (fates w) = None ->
   writeByte b w
   = (true, mkWorld (stdin w) (tl (fates w)) (stdout w ++ [b]) (stderr w)
              (sent w))) /\
  (forall (err : error) (f : list (option error)),
     fates w = Some err :: f ->
     (isBrokenPipe err ->
      writeByte b w
      = (false, mkWorld (stdin w) f (stdout w) (stderr w)
                  (sent w ++ [(done, true)]))) /\
     (~ isBrokenPipe err ->
      writeByte b w
      = (false, mkWorld (stdin w) f (stdout w) (stderr w ++ [err])
                  (sent w ++ [(done, true)])))).
Proof.
  unfold writeByte, writeOut, Write. split.
  - destruct (fates w) as [|[err|] f]; simpl; intros H;
      [reflexivity|discriminate H|reflexivity].
  - intros err f ->. split; intros H.
    + rewrite (brokenPipe_true err H). reflexivity.
    + rewrite (brokenPipe_false err H). reflexivity.
Qed.

Lemma writeByte_cases_witness :
  writeByte "k" (fresh []) = (true, mkWorld [] [] ["k"%byte] [] []) /\
  writeByte "k" (mkWorld [] [Some (PathError "write" "/dev/stdout" EPIPE)]
                   [] [] [])
  = (false, mkWorld [] [] [] [] [(done, true)]) /\
  writeByte "k" (mkWorld [] [Some (PathError "write" "/dev/stdout" (Errno 5))]
                   [] [] [])
  = (false, mkWorld [] [] []
              [PathError "write" "/dev/stdout" (Errno 5)] [(done, true)]).
Proof.
  split; [|split].
  - apply (proj1 (writeByte_cases "k" (fresh []))). reflexivity.
  - apply (proj2 (writeByte_cases "k"
             (mkWorld [] [Some (PathError "write" "/dev/stdout" EPIPE)]
                [] [] []))
             (PathError "write" "/dev/stdout" EPIPE) [] eq_refl).
    exists "write"%string, "/dev/stdout"%string. reflexivity.
  - apply (proj2 (writeByte_cases "k"
             (mkWorld [] [Some (PathError "write" "/dev/stdout" (Errno 5))]
                [] [] []))
             (PathError "write" "/dev/stdout" (Errno 5)) [] eq_refl).
    intros (op & path & H). discriminate H.
Defined.

(** ** The way out of goroutine A *)

(** [readKey] touches the input and the channel [pause] only. *)
Lemma readKey_frame (w w1 : World) (r : result) :
  readKey w = (r, w1) ->
  fates w1 = fates w /\ stdout w1 = stdout w /\ stderr w1 = stderr w.
Proof.
  rewrite readKey_eq. intros H. injection H as _ <-. repeat split.
Qed.

Lemma writeByte_stdout (b : byte) (w : World) :
  stdout (snd (writeByte b w))
  = stdout w ++ (if fst (writeByte b w) then [b] else []).
Proof.
  unfold writeByte, writeOut, Write.
  destruct (fates w) as [|[err|] f]; simpl;
    try (destruct (brokenPipe err)); simpl;
    rewrite ?app_nil_r; reflexivity.
Qed.

Lemma writeByte_fate (b : byte) (w : World) :
  fst (writeByte b w) = match fates w with Some _ :: _ => false | _ => true end.
Proof.
  unfold writeByte, writeOut, Write.
  destruct (fates w) as [|[err|] f]; reflexivity.
Qed.

(** X15: each of the quit keys [q], NUL, ETX, EOT and SUB makes [readKey]
    fail with [io.EOF], whatever its timing and whatever follows; the key
    alone is consumed. *)
Theorem readKey_quit_keys (b : byte) (g : Duration) (rest : list arrival)
    (w : World) :
  In b ["q"; x00; x03; x04; x1a]%byte ->
  readKey (set_stdin (byteAt g b :: rest) w)
  = (Return (x00, Some io_EOF), set_stdin rest w).
Proof.
  intros H. simpl in H.
  repeat (destruct H as [H|H]; [subst b; reflexivity|]).
  destruct H.
Qed.

Lemma readKey_quit_keys_witness :
  readKey (set_stdin [byteAt 0 x1a; byteAt 0 "i"%byte] (fresh []))
  = (Return (x00, Some io_EOF), fresh [byteAt 0 "i"%byte]).
Proof.
  apply (readKey_quit_keys x1a 0 [byteAt 0 "i"%byte] (fresh [])).
  simpl. intuition congruence.
Defined.


(** ** C1 *)

(** While the writes succeed, [n] drops leave the world with [n] more [k]
    on standard output and apply [nextDropRate] [n] times. *)
Lemma ticks_succeed (n : nat) :
  forall (d : Duration) (w : World),
    fates w = [] ->
    ticks n d w
    = (true, Nat.iter n nextDropRate d,
       mkWorld (stdin w) [] (stdout w ++ repeat "k"%byte n) (stderr w)
         (sent w)).
Proof.
  induction n as [|n IH]; intros d w Hf.
  - simpl. rewrite app_nil_r. destruct w; simpl in *; subst; reflexivity.
  - simpl ticks. unfold drop, writeByte, writeOut, Write. rewrite Hf. simpl.
    rewrite IH by reflexivity. simpl. rewrite <- app_assoc. simpl.
    rewrite <- Nat.iter_succ_r. reflexivity.
Qed.

Lemma int64_small (z : Z) : - 2 ^ 63 <= z < 2 ^ 63 -> int64 z = z.
Proof. intros H. unfold int64. rewrite Z.mod_small; lia. Qed.

(** The interval after [n] drops: one millisecond less per drop, down to
    zero. *)
Lemma dropRate_closed_form (n : nat) :
  Nat.iter n nextDropRate initialDropRate
  = Z.max ((1000 - Z.of_nat n) * Millisecond) 0.
Proof.
  induction n as [|n IH]; [reflexivity|].
  rewrite Nat.iter_succ, IH. unfold nextDropRate.
  unfold finalDropRate, dropRateDelta, Millisecond, Microsecond.
  rewrite Z.gtb_ltb.
  destruct (Z.ltb_spec (400 * 1000)
              (Z.max ((1000 - Z.of_nat n) * (1000 * 1000)) 0)); [|lia].
  rewrite int64_small; lia.
Qed.

(** Up to 999 drops the interval is the one the specification gives. *)
Lemma dropRate_as_specified (n : nat) :
  (n <= 999)%nat ->
  Nat.iter n nextDropRate initialDropRate = specDropRate n.
Proof.
  intros H. rewrite dropRate_closed_form. unfold specDropRate.
  unfold Millisecond, Microsecond. lia.
Qed.

(** C1: after 1000 drops that all succeed the interval is zero, below
    [finalDropRate], where the specification gives 0.4 ms. *)
Theorem dropRate_below_final :
  ticks 1000 initialDropRate (fresh [])
  = (true, 0, mkWorld [] [] (repeat "k"%byte 1000) [] []) /\
  0 < finalDropRate /\
  specDropRate 1000 = finalDropRate.
Proof.
  split; [|split; reflexivity].
  rewrite ticks_succeed by reflexivity.
  rewrite dropRate_closed_form. reflexivity.
Qed.

(** ** C8 *)

Lemma writes_refl (w w' : World) : stdout w' = stdout w -> writes w w'.
Proof. intros H. exists []. rewrite app_nil_r. split; [exact H|constructor]. Qed.

Lemma writes_trans (w1 w2 w3 : World) :
  writes w1 w2 -> writes w2 w3 -> writes w1 w3.
Proof.
  intros (o1 & E1 & F1) (o2 & E2 & F2). exists (o1 ++ o2). split.
  - rewrite E2, E1, app_assoc. reflexivity.
  - apply Forall_app. split; assumption.
Qed.

Lemma writeByte_writes (b : byte) (w : World) :
  In b wire -> writes w (snd (writeByte b w)).
Proof.
  intros H. eexists. split; [apply writeByte_stdout|].
  destruct (fst (writeByte b w)); [constructor; [exact H|]|]; constructor.
Qed.

Lemma commands_wire (k : byte) : In k commands -> In k wire.
Proof. simpl. intuition. Qed.

Lemma quit_writes (err : error) (w : World) : writes w (snd (quit err w)).
Proof.
  unfold quit. eapply writes_trans; [|apply writeByte_writes].
  - apply writes_refl. destruct (negb _); reflexivity.
  - simpl. intuition.
Qed.

Lemma gotKey_writes (k : byte) (w : World) :
  In k commands -> writes w (snd (Sys.gotKey k w)).
Proof.
  intros H. unfold Sys.gotKey.
  pose proof (writeByte_writes k w (commands_wire k H)) as Hw.
  destruct (writeByte k w) as [ok w']. destruct ok; exact Hw.
Qed.

Lemma gotErr_writes (err : error) (w : World) :
  writes w (snd (Sys.gotErr err w)).
Proof.
  unfold Sys.gotErr. pose proof (quit_writes err w) as Hw.
  destruct (quit err w) as [ok w']. destruct ok; [|exact Hw].
  eapply writes_trans; [exact Hw|]. apply writes_refl. reflexivity.
Qed.

Lemma read_writes (at_ : Sys.site) (w w' : World) (pc : Sys.fpc) :
  Sys.read at_ w = Some (pc, w') -> writes w w'.
Proof.
  assert (Hin : forall l, writes w (set_stdin l w))
    by (intros l; apply writes_refl; reflexivity).
  assert (Herr : forall err l r,
            Some (Sys.gotErr err (set_stdin l w)) = Some r -> writes w (snd r)).
  { intros err l r H. injection H as <-.
    eapply writes_trans; [apply Hin|apply gotErr_writes]. }
  assert (Hkey : forall k l r, In k commands ->
            Some (Sys.gotKey k (set_stdin l w)) = Some r -> writes w (snd r)).
  { intros k l r Hk H. injection H as <-.
    eapply writes_trans; [apply Hin|apply gotKey_writes, Hk]. }
  assert (Hsame : forall (pc0 : Sys.fpc) w0 r, stdout w0 = stdout w ->
            Some (pc0, w0) = Some r -> writes w (snd r)).
  { intros pc0 w0 r E H. injection H as <-. apply writes_refl, E. }
  intros H. change w' with (snd (pc, w')). revert H. generalize (pc, w').
  intros r. unfold Sys.read.
  destruct at_, (stdin w) as [|a rest]; try discriminate.
  - destruct (item a) as [b|err]; [|apply Herr].
    destruct (keySwitch b) eqn:Hb;
      [eapply Hkey, keySwitch_commands, Hb|apply Herr
      |apply Hsame; reflexivity..].
  - destruct (item a) as [b|err]; [|apply Herr].
    destruct (isPauseKey b); apply Hsame; reflexivity.
  - intros H. injection H as <-. apply gotErr_writes.
  - destruct (gap a <? escTimeout).
    + destruct (negb (isBracket (item a)));
        [apply Herr|apply Hsame; reflexivity].
    + intros H. injection H as <-. apply gotErr_writes.
  - destruct (item a) as [b|err]; [|apply Herr].
    destruct (arrowSwitch b) eqn:Hb;
      [eapply Hkey, arrowSwitch_commands, Hb|apply Hsame; reflexivity].
Qed.

Lemma forwardStep_writes (s s' : Sys.State) :
  Sys.forwardStep s = Some s' -> writes (Sys.world s) (Sys.world s').
Proof.
  unfold Sys.forwardStep.
  destruct (Sys.forwarding s) as [|at_|v| | | |]; try discriminate.
  - destruct (Sys.gravity s); try discriminate;
      intros H; injection H as <-; apply writes_refl; reflexivity.
  - destruct (Sys.read at_ (Sys.world s)) as [[pc w']|] eqn:R; [|discriminate].
    intros H; injection H as <-. eapply read_writes, R.
Qed.

Lemma timerStep_writes (s s' : Sys.State) :
  Sys.timerStep s = Some s' -> writes (Sys.world s) (Sys.world s').
Proof.
  unfold Sys.timerStep, drop.
  destruct (Sys.gravity s); try discriminate.
  assert (Hk : In "k"%byte wire) by (simpl; intuition).
  pose proof (writeByte_writes "k"%byte (Sys.world s) Hk) as Hw.
  destruct (writeByte "k" (Sys.world s)) as [ok w'].
  destruct ok; simpl; intros H; injection H as <-; exact Hw.
Qed.

Lemma pauseStep_writes (s s' : Sys.State) :
  Sys.pauseStep s = Some s' -> writes (Sys.world s) (Sys.world s').
Proof.
  unfold Sys.pauseStep.
  destruct (Sys.forwarding s), (Sys.gravity s); try discriminate;
    intros H; injection H as <-; apply writes_refl; reflexivity.
Qed.

Lemma doneStep_writes (s s' : Sys.State) :
  Sys.doneStep s = Some s' -> writes (Sys.world s) (Sys.world s').
Proof.
  unfold Sys.doneStep.
  destruct (Sys.forwarding s), (Sys.gravity s); try discriminate;
    intros H; injection H as <-; apply writes_refl; reflexivity.
Qed.

Lemma step_writes (m : Sys.move) (s s' : Sys.State) :
  Sys.step m s = Some s' -> writes (Sys.world s) (Sys.world s').
Proof.
  unfold Sys.step. destruct (Sys.gravity s); try discriminate;
    destruct m as [| |[|]];
    auto using forwardStep_writes, timerStep_writes, pauseStep_writes,
      doneStep_writes.
Qed.

Lemma run_writes (ms : list Sys.move) :
  forall s0 s, Sys.run ms s0 = Some s -> writes (Sys.world s0) (Sys.world s).
Proof.
  induction ms as [|m ms IH]; intros s0 s; simpl.
  - intros H. injection H as <-. apply writes_refl. reflexivity.
  - destruct (Sys.step m s0) as [s1|] eqn:E; [|discriminate].
    intros H. eapply writes_trans; [eapply step_writes, E|apply IH, H].
Qed.

(** C8: whatever the two goroutines do, and in whatever order, every byte
    the program adds to standard output is one of [i j k l] and ESC. *)
Theorem stdout_on_the_wire (w : World) (s : Sys.State) :
  Sys.reachable w s -> writes w (Sys.world s).
Proof. intros (ms & H). exact (run_writes ms (Sys.init w) s H). Qed.

Lemma stdout_on_the_wire_witness :
  writes
    (fresh [byteAt 0 "w"; byteAt 0 x1b; byteAt 5 "["; byteAt 0 "D";
            byteAt 0 "x"; byteAt 0 "q"]%byte)
    (mkWorld [] [] ["i"; "k"; "j"; x1b]%byte [] [(done, true)]).
Proof.
  apply (stdout_on_the_wire
           (fresh [byteAt 0 "w"; byteAt 0 x1b; byteAt 5 "["; byteAt 0 "D";
                   byteAt 0 "x"; byteAt 0 "q"]%byte)
           (Sys.mkState (mkWorld [] [] ["i"; "k"; "j"; x1b]%byte [] [(done, true)])
              Sys.FReturned Sys.GReturned 999000000)).
  exists [Sys.Forward; Sys.Forward; Sys.Timer; Sys.Forward; Sys.Forward;
          Sys.Forward; Sys.Forward; Sys.Forward; Sys.Forward; Sys.Forward;
          Sys.Sync done].
  reflexivity.
Defined.

(** ** C2 *)

(** What does hold: in its select goroutine B takes a send on [done] that
    goroutine A has started, and [main] returns. *)
Lemma ticking_observes_done (s : Sys.State) :
  Sys.gravity s = Sys.GSelect ->
  In (Sys.forwarding s) [Sys.FDone; Sys.FDoneKey; Sys.FDoneEsc] ->
  exists s', Sys.step (Sys.Sync done) s = Some s' /\
             Sys.gravity s' = Sys.GReturned /\
             stdout (Sys.world s') = stdout (Sys.world s).
Proof.
  intros G F. unfold Sys.step, Sys.doneStep. rewrite G. simpl in F.
  destruct F as [<-|[<-|[<-|[]]]]; eexists; repeat split.
Qed.

(** Once [main] has returned nothing moves, so nothing more is written. *)
Lemma returned_is_final (s : Sys.State) (m : Sys.move) :
  Sys.gravity s = Sys.GReturned -> Sys.step m s = None.
Proof. intros G. unfold Sys.step. rewrite G. reflexivity. Qed.

(** In the receive of line 87 goroutine B waits for [pause] alone: a send
    on [done] that goroutine A starts meanwhile is never taken. *)
Lemma paused_ignores_done (s : Sys.State) :
  Sys.gravity s = Sys.GPaused ->
  Sys.forwarding s = Sys.FDone \/ Sys.forwarding s = Sys.FDoneEsc ->
  Sys.deadlocked s.
Proof.
  intros G F. split; [rewrite G; discriminate|].
  intros m. unfold Sys.step, Sys.forwardStep, Sys.timerStep, Sys.pauseStep,
    Sys.doneStep. rewrite G.
  destruct F as [-> | ->], m as [| |[|]]; reflexivity.
Qed.

(** C2: on the input [p] followed by end of file, goroutine B receives
    the pause, goroutine A meets the end of file in the loop of line 129,
    writes ESC and starts the send of line 63; goroutine B is in the
    receive of line 87 and does not take it: the shutdown is signalled,
    neither loop has ended, and nothing can move. *)
Theorem shutdown_while_paused :
  exists s : Sys.State,
    Sys.reachable (fresh [byteAt 0 "p"%byte; errAt 0 io_EOF]) s /\
    stdout (Sys.world s) = [ESC] /\
    Sys.shutdownSignalled s /\
    Sys.forwarding s = Sys.FDone /\
    Sys.gravity s = Sys.GPaused /\
    Sys.deadlocked s.
Proof.
  eexists. split.
  - exists [Sys.Forward; Sys.Forward; Sys.Sync pause; Sys.Forward].
    reflexivity.
  - simpl. split; [reflexivity|]. split; [right; left; reflexivity|].
    split; [reflexivity|]. split; [reflexivity|].
    apply paused_ignores_done; [reflexivity|left; reflexivity].
Qed.

(** On that input the deadlock is no accident of the schedule: in no run
    does [main] return. *)
Section PausedAtEOF.
Import Sys.

Lemma pausedAtEOF_step (m : move) (s s' : State) :
  pausedAtEOF s -> step m s = Some s' -> pausedAtEOF s'.
Proof.
  destruct s as [[i f o e sn] fp gp d]. unfold pausedAtEOF. simpl.
  intros (-> & H).
  repeat (destruct H as [H|H];
    [injection H as <- <- <-; destruct m as [| |[|]]; simpl;
     intros H; try discriminate H; injection H as <-; simpl; tauto|]).
  destruct H.
Qed.

Lemma pausedAtEOF_run (ms : list move) :
  forall s s', pausedAtEOF s -> run ms s = Some s' -> pausedAtEOF s'.
Proof.
  induction ms as [|m ms IH]; intros s s' Hs; simpl.
  - intros H; injection H as <-; exact Hs.
  - destruct (step m s) as [s1|] eqn:E; [|discriminate].
    apply IH. eapply pausedAtEOF_step; eassumption.
Qed.

Lemma never_returns (s : State) :
  reachable (fresh [byteAt 0 "p"%byte; errAt 0 io_EOF]) s -> gravity s <> GReturned.
Proof.
  intros (ms & H).
  assert (Hs : pausedAtEOF s).
  { eapply pausedAtEOF_run; [|exact H]. split; [reflexivity|left; reflexivity]. }
  destruct Hs as (_ & Hs). simpl in Hs.
  intros G. rewrite G in Hs. intuition discriminate.
Qed.

End PausedAtEOF.

(** The same channel fails the other way round when the pipe is closed:
    the drop of goroutine B fails and it starts the send of line 101;
    goroutine A, in [readKey], reads a key, fails to write it and starts
    the same send; no one receives. *)
Lemma both_sending_deadlock :
  exists s : Sys.State,
    Sys.run [Sys.Forward; Sys.Timer; Sys.Forward]
      (Sys.init (mkWorld [byteAt 0 "i"%byte]
                   [Some (PathError "write" "/dev/stdout" EPIPE);
                    Some (PathError "write" "/dev/stdout" EPIPE)] [] [] []))
    = Some s /\
    Sys.forwarding s = Sys.FDoneKey /\
    Sys.gravity s = Sys.GDone /\
    Sys.deadlocked s.
Proof.
  eexists. split; [reflexivity|]. simpl.
  split; [reflexivity|]. split; [reflexivity|].
  split; [discriminate|]. intros [| |[|]]; reflexivity.
Qed.

(** A byte can follow the signal: the drop of goroutine B fails with an
    error that passes, its send on [done] waits until goroutine A is back
    at its select, and before that goroutine A writes the key it reads. *)
Lemma byte_after_shutdown :
  exists s1 s2 : Sys.State,
    Sys.run [Sys.Forward; Sys.Timer]
      (Sys.init (mkWorld [byteAt 0 "i"%byte]
                   [Some (errorString "resource temporarily unavailable")]
                   [] [] []))
    = Some s1 /\
    Sys.shutdownSignalled s1 /\ stdout (Sys.world s1) = [] /\
    Sys.step Sys.Forward s1 = Some s2 /\
    stdout (Sys.world s2) = ["i"%byte].
Proof.
  do 2 eexists. split; [reflexivity|]. simpl.
  split; [left; reflexivity|]. split; [reflexivity|].
  split; reflexivity.
Qed.

(** ** The two goroutines together: what a read leads to *)

Lemma read_cases (at_ : Sys.site) (w : World) (r : Sys.fpc * World) :
  Sys.read at_ w = Some r -> readCase at_ w r.
Proof.
  unfold Sys.read.
  destruct (stdin w) as [|a rest] eqn:Hin.
  - destruct at_; try discriminate.
    intros H. injection H as <-. apply readTimeoutCase. reflexivity.
  - destruct at_.
    + destruct (item a) as [b|err] eqn:Ha.
      * destruct (keySwitch b) eqn:Hb; intros H; injection H as <-.
        -- eapply readKeyCase;
             [exact Hin|eapply keySwitch_commands, Hb|discriminate].
        -- eapply readQuitCase; [exact Hin|discriminate].
        -- apply (readPauseCase Sys.AtKey w a rest Hin).
        -- eapply readNextCase; [exact Hin|split; discriminate].
        -- eapply readNextCase; [exact Hin|split; discriminate].
      * intros H; injection H as <-. eapply readErrCase; eassumption.
    + destruct (item a) as [b|err] eqn:Ha.
      * destruct (isPauseKey b); intros H; injection H as <-.
        -- apply (readPauseCase Sys.AtPause w a rest Hin).
        -- eapply readNextCase; [exact Hin|split; reflexivity].
      * intros H; injection H as <-. eapply readErrCase; eassumption.
    + destruct (gap a <? escTimeout).
      * destruct (negb (isBracket (item a))); intros H; injection H as <-.
        -- eapply readQuitCase; [exact Hin|discriminate].
        -- eapply readNextCase; [exact Hin|split; discriminate].
      * intros H; injection H as <-. apply readTimeoutCase. reflexivity.
    + destruct (item a) as [b|err] eqn:Ha.
      * destruct (arrowSwitch b) eqn:Hb; intros H; injection H as <-.
        -- eapply readKeyCase;
             [exact Hin|eapply arrowSwitch_commands, Hb|discriminate].
        -- eapply readNextCase; [exact Hin|split; discriminate].
      * intros H; injection H as <-. eapply readErrCase; eassumption.
Qed.

(** ** C5 *)

(** Apart from the timer, at most one move is possible in a state. *)
Lemma step_unique (m1 m2 : Sys.move) (s s1 s2 : Sys.State) :
  m1 <> Sys.Timer -> m2 <> Sys.Timer ->
  Sys.step m1 s = Some s1 -> Sys.step m2 s = Some s2 -> m1 = m2.
Proof.
  destruct s as [w f g d]. unfold Sys.step. simpl.
  destruct m1 as [| |[|]], m2 as [| |[|]]; try congruence; intros _ _;
    destruct g; try discriminate;
    unfold Sys.forwardStep, Sys.pauseStep, Sys.doneStep; simpl;
    destruct f; try discriminate.
Qed.

(** So two runs without the timer from one state go the same way, as far
    as the shorter goes. *)
Lemma run_prefix (ms1 : list Sys.move) :
  forall (ms2 : list Sys.move) (s s1 s2 : Sys.State),
    ~ In Sys.Timer ms1 -> ~ In Sys.Timer ms2 ->
    Sys.run ms1 s = Some s1 -> Sys.run ms2 s = Some s2 ->
    (exists tail, ms1 = ms2 ++ tail) \/ (exists tail, ms2 = ms1 ++ tail).
Proof.
  induction ms1 as [|m1 ms1 IH]; intros ms2 s s1 s2 H1 H2.
  - intros _ _. right. exists ms2. reflexivity.
  - destruct ms2 as [|m2 ms2].
    + intros _ _. left. exists (m1 :: ms1). reflexivity.
    + simpl. destruct (Sys.step m1 s) as [sa|] eqn:Ea; [|discriminate].
      destruct (Sys.step m2 s) as [sb|] eqn:Eb; [|discriminate].
      apply not_in_cons in H1 as [N1 H1]. apply not_in_cons in H2 as [N2 H2].
      assert (m1 = m2) by (eapply step_unique; eauto). subst m2.
      rewrite Ea in Eb. injection Eb as <-.
      intros R1 R2.
      destruct (IH ms2 sa s1 s2 H1 H2 R1 R2) as [(t & ->)|(t & ->)].
      * left. exists t. reflexivity.
      * right. exists t. reflexivity.
Qed.

Lemma run_app (a b : list Sys.move) :
  forall x y, Sys.run a x = Some y -> Sys.run (a ++ b) x = Sys.run b y.
Proof.
  induction a as [|m a IH]; intros x y; simpl.
  - intros H; injection H as <-; reflexivity.
  - destruct (Sys.step m x); [apply IH|discriminate].
Qed.

(** What does hold: when no drop comes in between, the input [w j s d q]
    is forwarded as [i j k l], ESC follows, [main] takes the send of
    line 63 and both goroutines return; every run without a drop is a
    part of that one. *)
Lemma wjsdq_runs :
  Sys.run [Sys.Forward; Sys.Forward; Sys.Forward; Sys.Forward; Sys.Forward;
           Sys.Forward; Sys.Forward; Sys.Forward; Sys.Forward; Sys.Forward;
           Sys.Sync done]
    (Sys.init (fresh (map (byteAt 0) ["w"; "j"; "s"; "d"; "q"]%byte)))
  = Some (Sys.mkState
            (mkWorld [] [] ["i"; "j"; "k"; "l"; ESC]%byte [] [(done, true)])
            Sys.FReturned Sys.GReturned initialDropRate) /\
  forall (ms : list Sys.move) (s : Sys.State),
    ~ In Sys.Timer ms ->
    Sys.run ms (Sys.init (fresh (map (byteAt 0) ["w"; "j"; "s"; "d"; "q"]%byte)))
    = Some s ->
    exists tail,
      [Sys.Forward; Sys.Forward; Sys.Forward; Sys.Forward; Sys.Forward;
       Sys.Forward; Sys.Forward; Sys.Forward; Sys.Forward; Sys.Forward;
       Sys.Sync done] = ms ++ tail.
Proof.
  assert (HC : ~ In Sys.Timer
                 [Sys.Forward; Sys.Forward; Sys.Forward; Sys.Forward;
                  Sys.Forward; Sys.Forward; Sys.Forward; Sys.Forward;
                  Sys.Forward; Sys.Forward; Sys.Sync done])
    by (simpl; intuition discriminate).
  assert (Hrun :
    Sys.run [Sys.Forward; Sys.Forward; Sys.Forward; Sys.Forward; Sys.Forward;
             Sys.Forward; Sys.Forward; Sys.Forward; Sys.Forward; Sys.Forward;
             Sys.Sync done]
      (Sys.init (fresh (map (byteAt 0) ["w"; "j"; "s"; "d"; "q"]%byte)))
    = Some (Sys.mkState
              (mkWorld [] [] ["i"; "j"; "k"; "l"; ESC]%byte [] [(done, true)])
              Sys.FReturned Sys.GReturned initialDropRate)) by reflexivity.
  split; [exact Hrun|]. intros ms s HT H.
  destruct (run_prefix _ _ _ _ _ HC HT Hrun H) as [Hp|(t & ->)];
    [exact Hp|].
  destruct t as [|m t]; [exists []; reflexivity|].
  exfalso. rewrite (run_app _ _ _ _ Hrun) in H. discriminate H.
Qed.

(** On the input [p], end of file, goroutine A returns in no run. *)
Lemma forwarder_never_returns (s : Sys.State) :
  Sys.reachable (fresh [byteAt 0 "p"%byte; errAt 0 io_EOF]) s ->
  Sys.forwarding s <> Sys.FReturned.
Proof.
  intros (ms & H).
  assert (Hs : Sys.pausedAtEOF s).
  { eapply pausedAtEOF_run; [|exact H]. split; [reflexivity|left; reflexivity]. }
  destruct Hs as (_ & Hs). simpl in Hs.
  intros F. rewrite F in Hs. intuition discriminate.
Qed.

(** C5: a failure of [readKey] does not always end the forwarding loop.
    On the input [p], end of file, goroutine A writes ESC and starts the
    send of line 63, which [main], in the receive of line 87, never takes;
    with the pipe closed and [main] held in the send of its failed drop,
    goroutine A fails to write ESC and is held in the send of line 101.
    Either way it stands in its send for ever and does not return. *)
Theorem forwarder_held_in_send :
  (exists s : Sys.State,
     Sys.reachable (fresh [byteAt 0 "p"%byte; errAt 0 io_EOF]) s /\
     stdout (Sys.world s) = [ESC] /\
     sent (Sys.world s) = [(pause, true); (done, true)] /\
     Sys.forwarding s = Sys.FDone /\
     Sys.deadlocked s) /\
  (exists s : Sys.State,
     Sys.reachable
       (mkWorld [errAt 0 io_EOF]
          [Some (PathError "write" "/dev/stdout" EPIPE);
           Some (PathError "write" "/dev/stdout" EPIPE)] [] [] []) s /\
     stdout (Sys.world s) = [] /\
     sent (Sys.world s) = [(done, true); (done, true)] /\
     Sys.forwarding s = Sys.FDoneEsc /\
     Sys.gravity s = Sys.GDone /\
     Sys.deadlocked s).
Proof.
  split.
  - eexists. split.
    + exists [Sys.Forward; Sys.Forward; Sys.Sync pause; Sys.Forward].
      reflexivity.
    + simpl. repeat (split; [reflexivity|]).
      split; [discriminate|]. intros [| |[|]]; reflexivity.
  - eexists. split.
    + exists [Sys.Forward; Sys.Timer; Sys.Forward]. reflexivity.
    + simpl. repeat (split; [reflexivity|]).
      split; [discriminate|]. intros [| |[|]]; reflexivity.
Qed.

(** ** C7 *)

Lemma heldInSend_step (m : Sys.move) (s s' : Sys.State) :
  heldInSend s -> Sys.step m s = Some s' -> heldInSend s'.
Proof.
  destruct s as [w f g d]. unfold heldInSend. simpl. intros (-> & Hf).
  unfold Sys.step. simpl.
  destruct m as [| |[|]]; simpl;
    unfold Sys.forwardStep, Sys.timerStep, Sys.pauseStep, Sys.doneStep; simpl;
    destruct f as [|at_|v| | | |]; try discriminate; try contradiction.
  destruct Hf as (err & fs & Hf).
  destruct (Sys.read at_ w) as [[pc w']|] eqn:R; [|discriminate].
  intros H. injection H as <-. simpl. split; [reflexivity|].
  apply read_cases in R.
  assert (Hset : forall l, fates (set_stdin l w) = Some err :: fs)
    by (intros l; exact Hf).
  inversion R as [k a rest Hin Hk Hat E|e a rest Hin Ha E|a rest Hin Hat E
                 |Hat E|at' a rest Hin Hat E|a rest Hin E]; subst.
  - revert E. unfold Sys.gotKey, writeByte, writeOut, Write.
    rewrite Hset. simpl. intros E. injection E as <- _. exact I.
  - revert E. unfold Sys.gotErr, quit, writeByte, writeOut, Write.
    destruct (negb (error_eqb e io_EOF)); simpl; rewrite Hf; simpl;
      intros E; injection E as <- _; exact I.
  - revert E. unfold Sys.gotErr, quit, writeByte, writeOut, Write.
    simpl. rewrite Hf. simpl. intros E. injection E as <- _. exact I.
  - revert E. unfold Sys.gotErr, quit, writeByte, writeOut, Write.
    simpl. rewrite Hf. simpl. intros E. injection E as <- _. exact I.
  - exists err, fs. exact Hf.
  - exact I.
Qed.

(** X8: once [main] is held in the send of line 101 after a failed drop,
    while goroutine A is inside [readKey] and the next write fails too (the
    pipe is closed), [main] is held for ever, whatever arrives on the input
    and whatever the schedule: its call of [writeByte] never returns and
    the loop is never left. *)
Theorem heldInSend_for_ever (ms : list Sys.move) :
  forall s s', heldInSend s -> Sys.run ms s = Some s' ->
               Sys.gravity s' = Sys.GDone.
Proof.
  induction ms as [|m ms IH]; intros s s' Hs; simpl.
  - intros H; injection H as <-. exact (proj1 Hs).
  - destruct (Sys.step m s) as [s1|] eqn:E; [|discriminate].
    apply IH. eapply heldInSend_step; eassumption.
Qed.

Lemma heldInSend_for_ever_witness :
  Sys.gravity
    (Sys.mkState
       (mkWorld [byteAt 0 "q"%byte] [] [] []
          [(done, true); (done, true)])
       Sys.FDoneKey Sys.GDone initialDropRate)
  = Sys.GDone.
Proof.
  apply (heldInSend_for_ever [Sys.Forward; Sys.Forward]
           (Sys.mkState
              (mkWorld [byteAt 0 "x"; byteAt 0 "s"; byteAt 0 "q"]%byte
                 [Some (PathError "write" "/dev/stdout" EPIPE)] [] []
                 [(done, true)])
              (Sys.FRead Sys.AtKey) Sys.GDone initialDropRate)).
  - split; [reflexivity|]. simpl. eexists. eexists. reflexivity.
  - reflexivity.
Defined.

(** C7: a call of [writeByte] whose write fails does not always return
    [false].  With the pipe closed and goroutine A in the read of
    line 112, the drop of [main] fails, nothing is printed, the send of
    line 101 starts, and no one receives it: [main] stands in the send
    for ever and nothing can move. *)
Theorem writeByte_held_in_send :
  exists s : Sys.State,
    Sys.reachable
      (mkWorld [] [Some (PathError "write" "/dev/stdout" EPIPE)] [] [] []) s /\
    stdout (Sys.world s) = [] /\
    stderr (Sys.world s) = [] /\
    sent (Sys.world s) = [(done, true)] /\
    Sys.forwarding s = Sys.FRead Sys.AtKey /\
    Sys.gravity s = Sys.GDone /\
    Sys.deadlocked s.
Proof.
  eexists. split.
  - exists [Sys.Forward; Sys.Timer]. reflexivity.
  - simpl. repeat (split; [reflexivity|]).
    split; [discriminate|]. intros [| |[|]]; reflexivity.
Qed.

(** ** C6 *)


(** ** The step function and [readKey] agree *)

Section Agreement.
Import Sys.

Lemma forward_read (at_ : site) (w : World) (d : Duration) :
  step Forward (mkState w (FRead at_) (receiver at_) d)
  = match read at_ w with
    | Some (pc, w') => Some (mkState w' pc (receiver at_) d)
    | None => None
    end.
Proof. destruct at_; reflexivity. Qed.

Lemma agrees_blocked (at_ : site) :
  (forall sn, reader at_ [] sn = (Never, [], sn)) -> agrees [] at_.
Proof.
  intros HR f o e sn d. rewrite HR. simpl.
  exists [], (mkState (mkWorld [] f o e sn) (FRead at_) (receiver at_) d).
  split; [intros []|]. split; [reflexivity|].
  repeat split. exists at_. reflexivity.
Qed.

Lemma agrees_gotErr (at_ : site) (input rest : list arrival) (err : error) :
  (forall sn, reader at_ input sn = (Return (x00, Some err), rest, sn)) ->
  (forall f o e sn,
     read at_ (mkWorld input f o e sn)
     = Some (gotErr err (mkWorld rest f o e sn))) ->
  agrees input at_.
Proof.
  intros HR Hread f o e sn d. rewrite HR. simpl.
  exists [Forward],
    (mkState (snd (gotErr err (mkWorld rest f o e sn)))
       (fst (gotErr err (mkWorld rest f o e sn))) (receiver at_) d).
  split; [simpl; intuition discriminate|]. split.
  - simpl run. rewrite forward_read, Hread.
    destruct (gotErr err _) as [pc w']. reflexivity.
  - repeat split.
Qed.

Lemma agrees_gotKey (at_ : site) (input rest : list arrival) (k : byte) :
  receiver at_ = GSelect ->
  (forall sn, reader at_ input sn = (Return (k, None), rest, sn)) ->
  (forall f o e sn,
     read at_ (mkWorld input f o e sn)
     = Some (gotKey k (mkWorld rest f o e sn))) ->
  agrees input at_.
Proof.
  intros HG HR Hread f o e sn d. rewrite HR. simpl.
  exists [Forward],
    (mkState (snd (gotKey k (mkWorld rest f o e sn)))
       (fst (gotKey k (mkWorld rest f o e sn))) GSelect d).
  split; [simpl; intuition discriminate|]. split.
  - simpl run. rewrite forward_read, Hread, HG.
    destruct (gotKey k _) as [pc w']. reflexivity.
  - repeat split.
Qed.

Lemma agrees_next (at_ at' : site) (input rest : list arrival) :
  (forall sn, reader at_ input sn = reader at' rest sn) ->
  receiver at_ = receiver at' ->
  (forall f o e sn,
     read at_ (mkWorld input f o e sn)
     = Some (FRead at', mkWorld rest f o e sn)) ->
  agrees rest at' -> agrees input at_.
Proof.
  intros HR HG Hread IH f o e sn d. rewrite HR.
  destruct (IH f o e sn d) as (ms & s & Hms & Hrun & Hl).
  exists (Forward :: ms), s. split; [simpl; intuition discriminate|].
  split; [|exact Hl].
  simpl run. rewrite forward_read, Hread, HG. exact Hrun.
Qed.

Lemma agrees_pause (at_ at' : site) (v : bool) (input rest : list arrival) :
  (forall sn, reader at_ input sn = reader at' rest (sn ++ [(pause, v)])) ->
  at' = (if v then AtPause else AtKey) ->
  receiver at_ = (if v then GSelect else GPaused) ->
  (forall f o e sn,
     read at_ (mkWorld input f o e sn)
     = Some (FPause v, mkWorld rest f o e (sn ++ [(pause, v)]))) ->
  agrees rest at' -> agrees input at_.
Proof.
  intros HR -> HG Hread IH f o e sn d. rewrite HR.
  destruct (IH f o e (sn ++ [(pause, v)]) d) as (ms & s & Hms & Hrun & Hl).
  exists (Forward :: Sync pause :: ms), s.
  split; [simpl; intuition discriminate|].
  split; [|exact Hl].
  simpl run. rewrite forward_read, Hread, HG.
  destruct v; exact Hrun.
Qed.

(** Whatever the input and the read, goroutine A in the step function
    does what the functions of [readKeyAt] compute. *)
Lemma reads_as_readKey (input : list arrival) : forall at_, agrees input at_.
Proof.
  induction input as [|[g [b|err]] input IH]; intros at_.
  - destruct at_; try (apply agrees_blocked; reflexivity).
    apply (agrees_gotErr AtBracket [] [] io_EOF); reflexivity.
  - destruct at_.
    + destruct (keySwitch b) eqn:Hb.
      * apply (agrees_gotKey AtKey _ input k); try reflexivity;
          intros; simpl; unfold read; simpl; rewrite Hb; reflexivity.
      * apply (agrees_gotErr AtKey _ input io_EOF);
          intros; simpl; unfold read; simpl; rewrite Hb; reflexivity.
      * apply (agrees_pause AtKey AtPause true _ input); try reflexivity;
          [intros; simpl; rewrite Hb; reflexivity
          |intros; unfold read; simpl; rewrite Hb; reflexivity|apply IH].
      * apply (agrees_next AtKey AtBracket _ input); try reflexivity;
          [intros; simpl; rewrite Hb; reflexivity
          |intros; unfold read; simpl; rewrite Hb; reflexivity|apply IH].
      * apply (agrees_next AtKey AtKey _ input); try reflexivity;
          [intros; simpl; rewrite Hb; reflexivity
          |intros; unfold read; simpl; rewrite Hb; reflexivity|apply IH].
    + destruct (isPauseKey b) eqn:Hb.
      * apply (agrees_pause AtPause AtKey false _ input); try reflexivity;
          [intros; simpl; rewrite Hb; reflexivity
          |intros; unfold read; simpl; rewrite Hb; reflexivity|apply IH].
      * apply (agrees_next AtPause AtPause _ input); try reflexivity;
          [intros; simpl; rewrite Hb; reflexivity
          |intros; unfold read; simpl; rewrite Hb; reflexivity|apply IH].
    + destruct (g <? escTimeout) eqn:Hg.
      * destruct (negb (isBracket (inl b))) eqn:Hb.
        -- apply (agrees_gotErr AtBracket _ input io_EOF);
             intros; simpl; unfold read; simpl; rewrite Hg;
             simpl in Hb; rewrite Hb; reflexivity.
        -- apply (agrees_next AtBracket AtArrow _ input); try reflexivity;
          [intros; simpl; simpl in Hb; rewrite Hg, Hb; reflexivity
          |intros; unfold read; simpl; simpl in Hb; rewrite Hg, Hb; reflexivity|apply IH].
      * apply (agrees_gotErr AtBracket _ (Arrive g (inl b) :: input) io_EOF);
             intros; simpl; unfold read; simpl; rewrite Hg; reflexivity.
    + destruct (arrowSwitch b) eqn:Hb.
      * apply (agrees_gotKey AtArrow _ input b0); try reflexivity;
          intros; simpl; unfold read; simpl; rewrite Hb; reflexivity.
      * apply (agrees_next AtArrow AtKey _ input); try reflexivity;
          [intros; simpl; rewrite Hb; reflexivity
          |intros; unfold read; simpl; rewrite Hb; reflexivity|apply IH].
  - destruct at_.
    + apply (agrees_gotErr AtKey _ input err); reflexivity.
    + apply (agrees_gotErr AtPause _ input err); reflexivity.
    + destruct (g <? escTimeout) eqn:Hg.
      * apply (agrees_gotErr AtBracket _ input io_EOF);
             intros; simpl; unfold read; simpl; rewrite Hg; reflexivity.
      * apply (agrees_gotErr AtBracket _ (Arrive g (inr err) :: input) io_EOF);
             intros; simpl; unfold read; simpl; rewrite Hg; reflexivity.
    + apply (agrees_gotErr AtArrow _ input err); reflexivity.
Qed.

(** From its first read on, goroutine A lands where [readKey] says. *)
Lemma Sys_readKey (w : World) (d : Duration) :
  exists (ms : list move) (s : State),
    ~ In Timer ms /\
    run ms (mkState w (FRead AtKey) GSelect d) = Some s /\
    landed (fst (readKey w)) (snd (readKey w)) d s.
Proof.
  destruct w as [input f o e sn].
  destruct (reads_as_readKey input AtKey f o e sn d) as (ms & s & H1 & H2 & H3).
  exists ms, s. split; [exact H1|]. split; [exact H2|].
  rewrite readKey_eq. exact H3.
Qed.

End Agreement.

(** * Further properties of the code *)

(** ** readKey: what it consumes and what it sends *)

Lemma readKeyAt_suffix (input : list arrival) :
  forall sn r rest sn',
    (readKeyAt input sn = (r, rest, sn') -> exists used, input = used ++ rest) /\
    (pauseLoop input sn = (r, rest, sn') -> exists used, input = used ++ rest) /\
    (escape input sn = (r, rest, sn') -> exists used, input = used ++ rest) /\
    (arrow input sn = (r, rest, sn') -> exists used, input = used ++ rest).
Proof.
  induction input as [|a input IH]; intros sn r rest sn'.
  - simpl. repeat split; intros H; injection H as _ <- _; exists []; reflexivity.
  - assert (Hnow : forall r0 sn0,
              (r0, input, sn0) = (r, rest, sn') ->
              exists used, a :: input = used ++ rest).
    { intros r0 sn0 H. injection H as _ <- _. exists [a]. reflexivity. }
    assert (Hrec : forall sn2,
      (readKeyAt input sn2 = (r, rest, sn') ->
       exists used, a :: input = used ++ rest) /\
      (pauseLoop input sn2 = (r, rest, sn') ->
       exists used, a :: input = used ++ rest) /\
      (escape input sn2 = (r, rest, sn') ->
       exists used, a :: input = used ++ rest) /\
      (arrow input sn2 = (r, rest, sn') ->
       exists used, a :: input = used ++ rest)).
    { intros sn2. specialize (IH sn2 r rest sn').
      repeat split; intros H; apply IH in H; destruct H as (used & ->);
        exists (a :: used); reflexivity. }
    repeat split; simpl readKeyAt; simpl pauseLoop; simpl escape; simpl arrow.
    + destruct (item a) as [b|err]; [|apply Hnow].
      destruct (keySwitch b); try apply Hnow; apply Hrec.
    + destruct (item a) as [b|err]; [|apply Hnow].
      destruct (isPauseKey b); apply Hrec.
    + destruct (gap a <? escTimeout).
      * destruct (negb (isBracket (item a))); [apply Hnow|apply Hrec].
      * intros H. injection H as _ <- _. exists []. reflexivity.
    + destruct (item a) as [b|err]; [|apply Hnow].
      destruct (arrowSwitch b); [apply Hnow|apply Hrec].
Qed.

Lemma readKeyAt_returns_nonempty (input : list arrival) (sn sn' : list signal)
    (x : byte * option error) (rest : list arrival) :
  readKeyAt input sn = (Return x, rest, sn') ->
  (List.length rest < List.length input)%nat.
Proof.
  destruct input as [|a input]; [discriminate|]. simpl.
  assert (Hrec : forall used, input = used ++ rest ->
                 (List.length rest < S (List.length input))%nat).
  { intros used ->. rewrite length_app. lia. }
  destruct (item a) as [b|err].
  - destruct (keySwitch b).
    + intros H. injection H as _ <- _. lia.
    + intros H. injection H as _ <- _. lia.
    + intros H. apply (proj1 (proj2 (readKeyAt_suffix _ _ _ _ _))) in H.
      destruct H as (used & H). eapply Hrec, H.
    + destruct input as [|a' input']; simpl.
      * intros H. injection H as _ <- _. simpl. lia.
      * destruct (gap a' <? escTimeout).
        -- destruct (negb (isBracket (item a'))).
           ++ intros H. injection H as _ <- _. simpl. lia.
           ++ intros H. apply (proj2 (proj2 (proj2 (readKeyAt_suffix _ _ _ _ _)))) in H.
              destruct H as (used & ->). rewrite length_app. simpl. lia.
        -- intros H. injection H as _ <- _. simpl. lia.
    + intros H. apply (proj1 (readKeyAt_suffix _ _ _ _ _)) in H.
      destruct H as (used & H). eapply Hrec, H.
  - intros H. injection H as _ <- _. lia.
Qed.

(** X1: what [readKey] leaves of the input is the end of what it found,
    nothing reordered and nothing added; and it returns, with a key or
    with an error, only after it has taken at least one arrival. *)
Theorem readKey_consumes (w w' : World) (r : result) :
  readKey w = (r, w') ->
  (exists used, stdin w = used ++ stdin w') /\
  (r <> Never -> (List.length (stdin w') < List.length (stdin w))%nat).
Proof.
  rewrite readKey_eq. intros H. injection H as H <-. simpl.
  destruct (readKeyAt (stdin w) (sent w)) as [[r0 i] o] eqn:E.
  simpl in *. subst r0. split.
  - exact (proj1 (readKeyAt_suffix _ _ _ _ _) E).
  - intros Hr. destruct r as [x|]; [|congruence].
    eapply readKeyAt_returns_nonempty, E.
Qed.

Lemma readKey_consumes_witness :
  (exists used,
     [byteAt 0 "x"; byteAt 0 " "; byteAt 0 "q"; byteAt 0 "p"; byteAt 0 "a";
      byteAt 0 "i"]%byte = used ++ [byteAt 0 "i"%byte]) /\
  (List.length [byteAt 0%Z "i"%byte] < 6)%nat.
Proof.
  pose proof (readKey_consumes
    (fresh [byteAt 0 "x"; byteAt 0 " "; byteAt 0 "q"; byteAt 0 "p";
            byteAt 0 "a"; byteAt 0 "i"]%byte)
    (mkWorld [byteAt 0 "i"%byte] [] [] [] [(pause, true); (pause, false)])
    (Return ("j"%byte, None)) eq_refl) as [H1 H2].
  split; [exact H1|]. apply H2. discriminate.
Defined.

Lemma pauses_next (sn : list signal) (n : nat) (open : bool) :
  (sn ++ [(pause, true)]) ++ (pause, false) :: pauses n open
  = sn ++ pauses (S n) open.
Proof. rewrite <- app_assoc. reflexivity. Qed.

Lemma readKeyAt_pauses (input : list arrival) :
  forall sn r rest sn',
    (readKeyAt input sn = (r, rest, sn') ->
     exists n open, sn' = sn ++ pauses n open /\
                    (open = true -> forall k, r <> Return (k, None))) /\
    (pauseLoop input sn = (r, rest, sn') ->
     (sn' = sn /\ forall k, r <> Return (k, None)) \/
     exists n open, sn' = sn ++ (pause, false) :: pauses n open /\
                    (open = true -> forall k, r <> Return (k, None))) /\
    (escape input sn = (r, rest, sn') ->
     exists n open, sn' = sn ++ pauses n open /\
                    (open = true -> forall k, r <> Return (k, None))) /\
    (arrow input sn = (r, rest, sn') ->
     exists n open, sn' = sn ++ pauses n open /\
                    (open = true -> forall k, r <> Return (k, None))).
Proof.
  assert (Hnow : forall (r0 r : result) (i rest : list arrival) sn sn',
            (r0, i, sn) = (r, rest, sn') ->
            exists n open, sn' = sn ++ pauses n open /\
                           (open = true -> forall k, r <> Return (k, None))).
  { intros r0 r i rest sn sn' H. injection H as _ _ <-.
    exists 0%nat, false. split; [rewrite app_nil_r; reflexivity|discriminate]. }
  induction input as [|a input IH]; intros sn r rest sn'.
  - simpl. repeat split; try apply Hnow.
    intros H. injection H as <- _ <-. left. split; [reflexivity|discriminate].
  - repeat split; simpl readKeyAt; simpl pauseLoop; simpl escape; simpl arrow.
    + destruct (item a) as [b|err]; [|apply Hnow].
      destruct (keySwitch b); try apply Hnow; try apply IH.
      intros H. apply IH in H. destruct H as [(-> & Hk)|(n & open & -> & Hk)].
      * exists 0%nat, true. split; [reflexivity|intros _; exact Hk].
      * exists (S n), open. split; [apply pauses_next|exact Hk].
    + destruct (item a) as [b|err].
      * destruct (isPauseKey b); [|apply IH].
        intros H. apply IH in H. destruct H as (n & open & -> & Hk).
        right. exists n, open. split; [|exact Hk].
        rewrite <- app_assoc. reflexivity.
      * intros H. injection H as <- _ <-. left.
        split; [reflexivity|discriminate].
    + destruct (gap a <? escTimeout); [|apply Hnow].
      destruct (negb (isBracket (item a))); [apply Hnow|apply IH].
    + destruct (item a) as [b|err]; [|apply Hnow].
      destruct (arrowSwitch b); [apply Hnow|apply IH].
Qed.

(** X2: of the world [readKey] touches the input and the channel [pause]
    only: it writes nothing, prints nothing, and never sends on [done].
    Its sends on [pause] alternate, [true] first; when it returns a key
    every pause entered has been left. *)
Theorem readKey_pause_protocol (w w' : World) (r : result) :
  readKey w = (r, w') ->
  fates w' = fates w /\ stdout w' = stdout w /\ stderr w' = stderr w /\
  exists (n : nat) (open : bool),
    sent w' = sent w ++ pauses n open /\
    (forall k, r = Return (k, None) -> open = false).
Proof.
  rewrite readKey_eq. intros H. injection H as H <-. simpl.
  repeat (split; [reflexivity|]).
  destruct (readKeyAt (stdin w) (sent w)) as [[r0 i] o] eqn:E.
  simpl in *. subst r0.
  destruct (proj1 (readKeyAt_pauses _ _ _ _ _) E) as (n & open & -> & Hk).
  exists n, open. split; [reflexivity|].
  intros k ->. destruct open; [|reflexivity].
  exfalso. exact (Hk eq_refl k eq_refl).
Qed.

Lemma readKey_pause_protocol_witness :
  exists (n : nat) (open : bool),
    [(pause, true); (pause, false); (pause, true)] = [] ++ pauses n open /\
    (forall k, Return (x00, Some io_EOF) = Return (k, None) -> open = false).
Proof.
  apply (readKey_pause_protocol
           (fresh [byteAt 0 "p"; byteAt 0 "x"; byteAt 0 " "; byteAt 0 " ";
                   errAt 0 io_EOF]%byte)
           (mkWorld [] [] [] [] [(pause, true); (pause, false); (pause, true)])
           (Return (x00, Some io_EOF)) eq_refl).
Defined.

(** ** readKey: after ESC and a bracket *)




(** X4: the timeout guards the byte after ESC only.  Once the bracket is
    read, the read of line 155 waits as long as it takes: with no more
    input [readKey] never returns, and a read error there is returned as
    it is, not as [io.EOF]. *)
Theorem readKey_after_bracket (g0 g1 : Duration) (w : World) :
  g1 < escTimeout ->
  readKey (set_stdin [byteAt g0 ESC; byteAt g1 "["%byte] w)
  = (Never, set_stdin [] w) /\
  (forall (err : error) (g2 : Duration) (rest : list arrival),
     readKey (set_stdin (byteAt g0 ESC :: byteAt g1 "[" :: errAt g2 err :: rest) w)
     = (Return (x00, Some err), set_stdin rest w)).
Proof.
  intros Hg. apply Z.ltb_lt in Hg. unfold readKey. simpl. rewrite Hg.
  split; [reflexivity|]. intros err g2 rest. reflexivity.
Qed.

Lemma readKey_after_bracket_witness :
  readKey (set_stdin [byteAt 0 ESC; byteAt 1 "["%byte] (fresh []))
  = (Never, fresh []) /\
  readKey (set_stdin [byteAt 0 ESC; byteAt 1 "["%byte;
                      errAt (500 * Millisecond) (errorString "input/output error")]
             (fresh []))
  = (Return (x00, Some (errorString "input/output error")), fresh []).
Proof.
  assert (H : 1 < escTimeout) by reflexivity.
  split.
  - apply (proj1 (readKey_after_bracket 0 1 (fresh []) H)).
  - apply (proj2 (readKey_after_bracket 0 1 (fresh []) H)
             (errorString "input/output error") (500 * Millisecond) []).
Defined.

(** ** The gravity loop *)

(** X7: the gravity loop writes no drop after the first one whose write
    fails: the drops before it are written and each shortens the interval;
    the failed one writes nothing, leaves [dropRate] as it was, has its
    error printed unless it is the broken pipe, and starts the send on
    [done], in which [main] stands until it is received. *)
Theorem ticks_stop (j : nat) :
  forall (n : nat) (d : Duration) (w : World) (err : error)
         (f : list (option error)),
    fates w = repeat None j ++ Some err :: f ->
    (j < n)%nat ->
    exists log,
      ticks n d w
      = (false, Nat.iter j nextDropRate d,
         mkWorld (stdin w) f (stdout w ++ repeat "k"%byte j)
           (stderr w ++ log) (sent w ++ [(done, true)])) /\
      (isBrokenPipe err -> log = []) /\
      (~ isBrokenPipe err -> log = [err]).
Proof.
  induction j as [|j IH]; intros n d [i fs o e sn] err f Hf Hlen;
    simpl in Hf; subst fs; (destruct n as [|n]; [inversion Hlen|]).
  - exists (if brokenPipe err then [] else [err]). split; [|split].
    + simpl. unfold drop, writeByte, writeOut, Write. simpl.
      destruct (brokenPipe err); simpl; rewrite ?app_nil_r; reflexivity.
    + intros H. rewrite (brokenPipe_true err H). reflexivity.
    + intros H. rewrite (brokenPipe_false err H). reflexivity.
  - assert (Hlen' : (j < n)%nat) by lia.
    destruct (IH n (nextDropRate d)
                (mkWorld i (repeat None j ++ Some err :: f) (o ++ ["k"%byte])
                   e sn) err f eq_refl Hlen') as (log & Ht & Hlog).
    exists log. split; [|exact Hlog].
    simpl ticks. unfold drop, writeByte, writeOut, Write. simpl.
    simpl in Ht. rewrite Ht, <- app_assoc, <- Nat.iter_succ_r. reflexivity.
Qed.

Lemma ticks_stop_witness :
  exists log,
    ticks 10 initialDropRate
      (mkWorld [] [None; None; Some (PathError "write" "/dev/stdout" EPIPE); None]
         [] [] [])
    = (false, 998 * Millisecond,
       mkWorld [] [None] (["k"; "k"]%byte) ([] ++ log) [(done, true)]) /\
    (isBrokenPipe (PathError "write" "/dev/stdout" EPIPE) -> log = []) /\
    (~ isBrokenPipe (PathError "write" "/dev/stdout" EPIPE) ->
     log = [PathError "write" "/dev/stdout" EPIPE]).
Proof.
  apply (ticks_stop 2 10 initialDropRate
           (mkWorld [] [None; None; Some (PathError "write" "/dev/stdout" EPIPE);
                        None] [] [] [])
           (PathError "write" "/dev/stdout" EPIPE) [None]).
  - reflexivity.
  - lia.
Defined.

(** ** A pause, on every schedule *)

Lemma allSucceed_tl (t : nat) (f : list (option error)) :
  Forall (fun fate => fate = None) f ->
  Forall (fun fate => fate = None) (Nat.iter t (@tl (option error)) f).
Proof.
  intros H. induction t as [|t IH]; simpl; [exact H|].
  destruct IH; simpl; [constructor|assumption].
Qed.

Lemma drop_dropped (t : nat) (w : World) (d : Duration) :
  allSucceed w ->
  drop d (dropped t w) = (true, nextDropRate d, dropped (S t) w).
Proof.
  intros H. unfold drop, writeByte, writeOut, Write, dropped. simpl.
  pose proof (allSucceed_tl t _ H) as Ht.
  destruct (Nat.iter t (@tl (option error)) (fates w)) as [|[e|] f]; simpl.
  - rewrite <- app_assoc, <- repeat_cons. reflexivity.
  - inversion Ht; discriminate.
  - rewrite <- app_assoc, <- repeat_cons. reflexivity.
Qed.

Lemma skipn_next {A : Type} (i : nat) (l : list A) (P : A -> Prop) :
  (i < List.length l)%nat -> Forall P l ->
  exists a, skipn i l = a :: skipn (S i) l /\ P a.
Proof.
  revert i. induction l as [|x l IH]; intros i Hi HP; simpl in Hi; [lia|].
  inversion HP; subst. destruct i as [|i].
  - exists x. split; [reflexivity|assumption].
  - apply IH; [lia|assumption].
Qed.

Section Pausing.
Variables (w : World) (d : Duration) (p1 : byte) (g1 : Duration) (z : arrival).
Variables (mid rest : list arrival).
Hypothesis Hw : allSucceed w.
Hypothesis Hp1 : pauseKey p1.
Hypothesis Hz : forall b, item z = inl b -> pauseKey b.
Hypothesis Hmid : Forall plainByte mid.

Let path := pausing w d (byteAt g1 p1) z mid rest.

Lemma pausing_timer (n t : nat) (s : Sys.State) :
  Sys.step Sys.Timer (path n t) = Some s -> s = path n (S t).
Proof.
  assert (Hgo : forall w' f,
    Sys.step Sys.Timer
      (Sys.mkState (dropped t w') f Sys.GSelect (Nat.iter t nextDropRate d))
    = Some s -> allSucceed w' ->
    s = Sys.mkState (dropped (S t) w') f Sys.GSelect
          (Nat.iter (S t) nextDropRate d)).
  { intros w' f H Hs. unfold Sys.step, Sys.timerStep in H. simpl in H.
    rewrite drop_dropped in H by exact Hs. injection H as <-. reflexivity. }
  unfold path, pausing.
  destruct n as [|[|i]].
  - intros H. apply Hgo in H; [exact H|exact Hw].
  - intros H. apply Hgo in H; [exact H|exact Hw].
  - destruct (i <=? List.length mid)%nat; [discriminate|].
    destruct (item z) as [b|err]; [|discriminate].
    destruct (i =? S (List.length mid))%nat; [discriminate|].
    intros H. apply Hgo in H; [exact H|exact Hw].
Qed.

Lemma pausing_next (n t : nat) :
  (n < pauseLength z mid)%nat ->
  Sys.step (pauseMove mid n) (path n t) = Some (path (S n) t).
Proof.
  unfold pauseLength, pauseMove, path, pausing. intros Hn.
  destruct n as [|[|i]].
  - replace (0 =? List.length mid + 3)%nat with false
      by (symmetry; apply Nat.eqb_neq; lia). simpl orb. cbv iota.
    unfold Sys.step, Sys.forwardStep, Sys.read. simpl.
    rewrite (keySwitch_pause p1 Hp1). reflexivity.
  - reflexivity.
  - destruct (Nat.leb_spec i (List.length mid)) as [Hi|Hi].
    + replace (S (S i) =? List.length mid + 3)%nat with false
        by (symmetry; apply Nat.eqb_neq; lia). simpl orb. cbv iota.
      destruct (Nat.eq_dec i (List.length mid)) as [->|Hne].
      * rewrite skipn_all.
        replace (S (List.length mid) <=? List.length mid)%nat
          with false by (symmetry; apply Nat.leb_gt; lia).
        rewrite Nat.eqb_refl.
        unfold Sys.step, Sys.forwardStep, Sys.read. simpl.
        destruct (item z) as [b|err] eqn:Ez.
        -- rewrite (isPauseKey_true b (Hz b eq_refl)). reflexivity.
        -- destruct (Sys.gotErr err _). reflexivity.
      * destruct (skipn_next i mid plainByte) as (a & Ha & (b & Hb & Hpb));
          [lia|exact Hmid|].
        replace (S i <=? List.length mid)%nat with true
          by (symmetry; apply Nat.leb_le; lia).
        rewrite Ha.
        unfold Sys.step, Sys.forwardStep, Sys.read. simpl.
        rewrite Hb, (isPauseKey_false b Hpb). reflexivity.
    + destruct (item z) as [b|err] eqn:Ez; [|lia].
      assert (i = S (List.length mid)) by lia. subst i.
      replace (S (S (S (List.length mid))) =? List.length mid + 3)%nat
        with true by (symmetry; apply Nat.eqb_eq; lia).
      replace (S (S (List.length mid)) <=? List.length mid)%nat with false
        by (symmetry; apply Nat.leb_gt; lia).
      replace (S (S (List.length mid)) =? S (List.length mid))%nat with false
        by (symmetry; apply Nat.eqb_neq; lia).
      rewrite Nat.eqb_refl. rewrite orb_true_r. reflexivity.
Qed.

Lemma pauseMove_not_timer (n : nat) : pauseMove mid n <> Sys.Timer.
Proof. unfold pauseMove. destruct (_ || _); discriminate. Qed.

Lemma pausing_move (m : Sys.move) (n t : nat) (s : Sys.State) :
  m <> Sys.Timer -> (n < pauseLength z mid)%nat ->
  Sys.step m (path n t) = Some s -> s = path (S n) t.
Proof.
  intros Hm Hn H. pose proof (pausing_next n t Hn) as Hnext.
  assert (m = pauseMove mid n)
    by (eapply step_unique; eauto using pauseMove_not_timer).
  subst m. unfold path in *. congruence.
Qed.

Lemma pausing_run (ms : list Sys.move) :
  forall (n t : nat) (s : Sys.State),
    (n + moves ms <= pauseLength z mid)%nat ->
    Sys.run ms (path n t) = Some s ->
    s = path (n + moves ms) (t + timers ms).
Proof.
  induction ms as [|m ms IH]; intros n t s Hn; simpl.
  - intros H. injection H as <-. unfold moves, timers. simpl.
    rewrite !Nat.add_0_r. reflexivity.
  - destruct (Sys.step m (path n t)) as [s1|] eqn:E; [|discriminate].
    destruct m as [| |c].
    + apply pausing_move in E;
        [|discriminate|unfold moves in Hn; simpl in Hn; lia].
      subst s1. intros H. apply IH in H.
      * rewrite H. f_equal; unfold moves, timers; simpl; lia.
      * unfold moves in *. simpl in Hn. lia.
    + apply pausing_timer in E. subst s1. intros H. apply IH in H.
      * rewrite H. f_equal; unfold moves, timers; simpl; lia.
      * unfold moves in *. simpl in Hn. lia.
    + apply pausing_move in E;
        [|discriminate|unfold moves in Hn; simpl in Hn; lia].
      subst s1. intros H. apply IH in H.
      * rewrite H. f_equal; unfold moves, timers; simpl; lia.
      * unfold moves in *. simpl in Hn. lia.
Qed.

Lemma pausing_start :
  Sys.mkState (set_stdin (byteAt g1 p1 :: mid ++ z :: rest) w)
    (Sys.FRead Sys.AtKey) Sys.GSelect d
  = path 0 0.
Proof.
  unfold path, pausing, dropped, set_stdin. simpl. rewrite app_nil_r.
  reflexivity.
Qed.

End Pausing.

(** X5: a pause, on every schedule.  Goroutine A is at the read of
    line 112 and [main] at its select, every drop succeeds, and the input
    is a pause key, bytes that are no pause key, a pause key.  Then in
    every run nothing is written but the drops of [main]; until the pause
    is over goroutine A or a receive of [main] can always move; between
    the two receives [main] is in line 87 and writes no drop; and when the
    pause is over goroutine A is back at the read of line 112, both sends
    on [pause] made, with the input after the second pause key. *)
Theorem pause_on_every_schedule (w : World) (d : Duration) (p1 p2 : byte)
    (g1 g2 : Duration) (mid rest : list arrival) (ms : list Sys.move)
    (s : Sys.State) :
  allSucceed w -> pauseKey p1 -> pauseKey p2 -> Forall plainByte mid ->
  Sys.run ms
    (Sys.mkState (set_stdin (byteAt g1 p1 :: mid ++ byteAt g2 p2 :: rest) w)
       (Sys.FRead Sys.AtKey) Sys.GSelect d)
  = Some s ->
  (moves ms <= List.length mid + 4)%nat ->
  stdout (Sys.world s) = stdout w ++ repeat "k"%byte (timers ms) /\
  (moves ms < List.length mid + 4 ->
   exists m s', m <> Sys.Timer /\ Sys.step m s = Some s')%nat /\
  (2 <= moves ms < List.length mid + 4 ->
   Sys.gravity s = Sys.GPaused /\ Sys.step Sys.Timer s = None)%nat /\
  (moves ms = List.length mid + 4 ->
   s = Sys.mkState
         (mkWorld rest (Nat.iter (timers ms) (@tl (option error)) (fates w))
            (stdout w ++ repeat "k"%byte (timers ms)) (stderr w)
            (sent w ++ [(pause, true); (pause, false)]))
         (Sys.FRead Sys.AtKey) Sys.GSelect
         (Nat.iter (timers ms) nextDropRate d))%nat.
Proof.
  intros Hw Hp1 Hp2 Hmid Hrun Hlen.
  assert (Hz : forall b, item (byteAt g2 p2) = inl b -> pauseKey b)
    by (intros b H; injection H as <-; exact Hp2).
  rewrite (pausing_start w d p1 g1 (byteAt g2 p2) mid rest) in Hrun.
  apply (pausing_run w d p1 g1 (byteAt g2 p2) mid rest Hw Hp1 Hz Hmid) in Hrun;
    [|exact Hlen].
  simpl Nat.add in Hrun. subst s.
  set (n := moves ms) in *. set (t := timers ms) in *.
  split; [|split; [|split]].
  - unfold pausing. destruct n as [|[|i]]; try reflexivity.
    destruct (i <=? List.length mid)%nat; [reflexivity|]. simpl.
    destruct (i =? S (List.length mid))%nat; reflexivity.
  - intros Hn. exists (pauseMove mid n). eexists.
    split; [apply pauseMove_not_timer|].
    apply (pausing_next w d p1 g1 (byteAt g2 p2) mid rest Hp1 Hz Hmid).
    exact Hn.
  - intros Hn. unfold pausing. destruct n as [|[|i]]; try lia.
    destruct (Nat.leb_spec i (List.length mid)); [split; reflexivity|].
    simpl. replace (i =? S (List.length mid))%nat with true
      by (symmetry; apply Nat.eqb_eq; lia).
    split; reflexivity.
  - intros Hn. unfold pausing. rewrite Hn.
    replace (List.length mid + 4)%nat with (S (S (S (S (List.length mid)))))
      by lia.
    replace (S (S (List.length mid)) <=? List.length mid)%nat with false
      by (symmetry; apply Nat.leb_gt; lia).
    simpl item. cbv iota.
    replace (S (S (List.length mid)) =? S (List.length mid))%nat with false
      by (symmetry; apply Nat.eqb_neq; lia).
    unfold dropped, send, set_sent, set_stdin. simpl.
    rewrite <- app_assoc. reflexivity.
Qed.

Lemma pause_on_every_schedule_witness :
  let s := Sys.mkState
             (mkWorld [byteAt 0 "a"%byte] [] ["k"; "k"]%byte []
                [(pause, true); (pause, false)])
             (Sys.FRead Sys.AtKey) Sys.GSelect (998 * Millisecond) in
  stdout (Sys.world s) = [] ++ repeat "k"%byte 2 /\
  Sys.step Sys.Timer
    (Sys.mkState (mkWorld [byteAt 0 " "; byteAt 0 "a"]%byte [] ["k"%byte] []
                    [(pause, true)])
       (Sys.FRead Sys.AtPause) Sys.GPaused (999 * Millisecond))
  = None.
Proof.
  assert (Hw : allSucceed (fresh [])) by constructor.
  assert (Hp : pauseKey "p"%byte) by (left; reflexivity).
  assert (Hs : pauseKey " "%byte) by (right; reflexivity).
  assert (Hmid : Forall plainByte [byteAt 0 "q"%byte]).
  { repeat constructor. exists "q"%byte. split; [reflexivity|].
    intros [H|H]; discriminate H. }
  split.
  - apply (pause_on_every_schedule (fresh []) initialDropRate "p" " " 0 0
             [byteAt 0 "q"%byte] [byteAt 0 "a"%byte]
             [Sys.Timer; Sys.Forward; Sys.Sync pause; Sys.Forward; Sys.Forward;
              Sys.Sync pause; Sys.Timer]
             _ Hw Hp Hs Hmid eq_refl).
    unfold moves. simpl. lia.
  - apply (pause_on_every_schedule (fresh []) initialDropRate "p" " " 0 0
             [byteAt 0 "q"%byte] [byteAt 0 "a"%byte]
             [Sys.Timer; Sys.Forward; Sys.Sync pause; Sys.Forward]
             _ Hw Hp Hs Hmid eq_refl); unfold moves; simpl; lia.
Defined.

(** X6: a read error in a pause, on every schedule.  As before, but with a
    read error ([io.EOF] or any other) where the second pause key was:
    goroutine A is never stuck before it reads the error, and once it has,
    ESC is written, goroutine A stands in the send of line 63, [main] is
    still in the receive of line 87, and nothing can move: the program
    hangs. *)
Theorem read_error_in_pause (w : World) (d : Duration) (p1 : byte)
    (err : error) (g1 g2 : Duration) (mid rest : list arrival)
    (ms : list Sys.move) (s : Sys.State) :
  allSucceed w -> pauseKey p1 -> Forall plainByte mid ->
  Sys.run ms
    (Sys.mkState (set_stdin (byteAt g1 p1 :: mid ++ errAt g2 err :: rest) w)
       (Sys.FRead Sys.AtKey) Sys.GSelect d)
  = Some s ->
  (moves ms <= List.length mid + 3)%nat ->
  (moves ms < List.length mid + 3 ->
   exists m s', m <> Sys.Timer /\ Sys.step m s = Some s')%nat /\
  (moves ms = List.length mid + 3 ->
   stdin (Sys.world s) = rest /\
   stdout (Sys.world s) = stdout w ++ repeat "k"%byte (timers ms) ++ [ESC] /\
   Sys.forwarding s = Sys.FDone /\
   Sys.gravity s = Sys.GPaused /\
   Sys.deadlocked s)%nat.
Proof.
  intros Hw Hp1 Hmid Hrun Hlen.
  assert (Hz : forall b, item (errAt g2 err) = inl b -> pauseKey b)
    by (intros b H; discriminate H).
  rewrite (pausing_start w d p1 g1 (errAt g2 err) mid rest) in Hrun.
  apply (pausing_run w d p1 g1 (errAt g2 err) mid rest Hw Hp1 Hz Hmid) in Hrun;
    [|exact Hlen].
  simpl Nat.add in Hrun. subst s.
  set (n := moves ms) in *. set (t := timers ms) in *.
  split.
  - intros Hn. exists (pauseMove mid n). eexists.
    split; [apply pauseMove_not_timer|].
    apply (pausing_next w d p1 g1 (errAt g2 err) mid rest Hp1 Hz Hmid).
    exact Hn.
  - intros Hn. unfold pausing. rewrite Hn.
    replace (List.length mid + 3)%nat with (S (S (S (List.length mid))))
      by lia.
    replace (S (List.length mid) <=? List.length mid)%nat with false
      by (symmetry; apply Nat.leb_gt; lia).
    simpl item. cbv iota. cbv zeta.
    pose proof (allSucceed_tl t _ Hw) as Ht.
    unfold Sys.gotErr, quit, writeByte, writeOut, Write, dropped.
    destruct (negb (error_eqb err io_EOF)); simpl;
      (destruct (Nat.iter t (@tl (option error)) (fates w)) as [|[e|] f];
       [|inversion Ht; discriminate|]); simpl;
      rewrite <- app_assoc;
      repeat (split; [reflexivity|]);
      (split; [discriminate|]); intros [| |[|]]; reflexivity.
Qed.

Lemma read_error_in_pause_witness :
  let s := Sys.mkState
             (mkWorld [] [] ["k"; ESC]%byte [] [(pause, true); (done, true)])
             Sys.FDone Sys.GPaused (999 * Millisecond) in
  stdin (Sys.world s) = [] /\
  stdout (Sys.world s) = [] ++ repeat "k"%byte 1 ++ [ESC] /\
  Sys.forwarding s = Sys.FDone /\
  Sys.gravity s = Sys.GPaused /\
  Sys.deadlocked s.
Proof.
  assert (Hw : allSucceed (fresh [])) by constructor.
  assert (Hp : pauseKey "p"%byte) by (left; reflexivity).
  assert (Hmid : Forall plainByte [byteAt 0 "q"%byte]).
  { repeat constructor. exists "q"%byte. split; [reflexivity|].
    intros [H|H]; discriminate H. }
  apply (read_error_in_pause (fresh []) initialDropRate "p" io_EOF 0 0
           [byteAt 0 "q"%byte] []
           [Sys.Forward; Sys.Timer; Sys.Sync pause; Sys.Forward; Sys.Forward]
           _ Hw Hp Hmid eq_refl); unfold moves; simpl; lia.
Defined.

(** ** Every run of the two goroutines *)

Lemma run_invariant (P : Sys.State -> Prop) :
  (forall m s s', P s -> Sys.step m s = Some s' -> P s') ->
  forall ms s s', P s -> Sys.run ms s = Some s' -> P s'.
Proof.
  intros Hstep. induction ms as [|m ms IH]; intros s s' Hs; simpl.
  - intros H; injection H as <-; exact Hs.
  - destruct (Sys.step m s) as [s1|] eqn:E; [|discriminate].
    apply IH. eapply Hstep; eassumption.
Qed.

(** *** Where the goroutines stand together *)

Lemma gotKey_pc (k : byte) (w : World) :
  fst (Sys.gotKey k w) = Sys.FSelect \/ fst (Sys.gotKey k w) = Sys.FDoneKey.
Proof.
  unfold Sys.gotKey. destruct (writeByte k w) as [[|] w']; simpl; auto.
Qed.

Lemma gotErr_pc (err : error) (w : World) :
  fst (Sys.gotErr err w) = Sys.FDone \/ fst (Sys.gotErr err w) = Sys.FDoneEsc.
Proof.
  unfold Sys.gotErr. destruct (quit err w) as [[|] w']; simpl; auto.
Qed.

Lemma together_step (m : Sys.move) (s s' : Sys.State) :
  together (Sys.forwarding s) (Sys.gravity s) = true ->
  Sys.step m s = Some s' ->
  together (Sys.forwarding s') (Sys.gravity s') = true.
Proof.
  destruct s as [w f g d]. simpl. intros Ht. unfold Sys.step. simpl.
  destruct m as [| |[|]].
  - unfold Sys.forwardStep. simpl.
    destruct f as [|at_|v| | | |];
      try (destruct g; discriminate).
    + destruct g; try discriminate; intros H; injection H as <-; reflexivity.
    + destruct (Sys.read at_ w) as [[pc w']|] eqn:R;
        [|destruct g; discriminate].
      apply read_cases in R.
      assert (H' : together pc g = true).
      { inversion R as [k a rest Hin Hk Hat E|e a rest Hin Ha E|a rest Hin Hat E
                       |Hat E|at' a rest Hin Hat E|a rest Hin E].
        - destruct (gotKey_pc k (set_stdin rest w)) as [Hp|Hp];
            rewrite E in Hp; simpl in Hp; subst pc;
            destruct at_, g; try discriminate; try reflexivity; congruence.
        - destruct (gotErr_pc e (set_stdin rest w)) as [Hp|Hp];
            rewrite E in Hp; simpl in Hp; subst pc;
            destruct at_, g; try discriminate; reflexivity.
        - destruct (gotErr_pc io_EOF (set_stdin rest w)) as [Hp|Hp];
            rewrite E in Hp; simpl in Hp; subst pc;
            destruct at_, g; try discriminate; try reflexivity; congruence.
        - destruct (gotErr_pc io_EOF w) as [Hp|Hp];
            rewrite E in Hp; simpl in Hp; subst pc at_;
            destruct g; try discriminate; reflexivity.
        - subst. destruct at_, at', g; try discriminate; try reflexivity;
            destruct Hat as [H1 H2];
            try (specialize (H1 eq_refl); discriminate);
            try (specialize (H2 eq_refl); discriminate).
        - subst. destruct at_, g; try discriminate; reflexivity. }
      destruct g; try discriminate; intros H; injection H as <-; exact H'.
  - unfold Sys.timerStep. simpl. destruct g; try discriminate.
    destruct (drop d w) as [[go d'] w']. intros H; injection H as <-. simpl.
    destruct go; destruct f as [|[]|[]| | | |]; try discriminate; reflexivity.
  - unfold Sys.doneStep. simpl.
    destruct g, f as [|[]|[]| | | |]; try discriminate;
      intros H; injection H as <-; reflexivity.
  - unfold Sys.pauseStep. simpl.
    destruct g, f as [|[]|[]| | | |]; try discriminate;
      intros H; injection H as <-; reflexivity.
Qed.

(** X9: in every run goroutine A returns only together with [main]; while
    goroutine A is in the pause loop (at the read of line 130 or in the
    send of line 138) [main] is in the receive of line 87 and no drop is
    written; and [main] is in that receive only while goroutine A is in
    the pause loop or on its way out of it (lines 58-63). *)
Theorem standing_together (w : World) (s : Sys.State) :
  Sys.reachable w s ->
  (Sys.forwarding s = Sys.FReturned -> Sys.gravity s = Sys.GReturned) /\
  (Sys.forwarding s = Sys.FRead Sys.AtPause \/
   Sys.forwarding s = Sys.FPause false ->
   Sys.gravity s = Sys.GPaused /\ Sys.step Sys.Timer s = None) /\
  (Sys.gravity s = Sys.GPaused ->
   In (Sys.forwarding s)
     [Sys.FRead Sys.AtPause; Sys.FPause false; Sys.FDone; Sys.FDoneEsc]).
Proof.
  intros (ms & H).
  assert (Ht : together (Sys.forwarding s) (Sys.gravity s) = true).
  { eapply (run_invariant
              (fun s => together (Sys.forwarding s) (Sys.gravity s) = true));
      [apply together_step| |exact H]. reflexivity. }
  destruct s as [w' f g d]. simpl in *. split; [|split].
  - intros ->. destruct g; try discriminate; reflexivity.
  - intros [-> | ->]; destruct g; try discriminate; split; reflexivity.
  - intros ->. destruct f as [|[]|[]| | | |]; try discriminate; simpl; auto.
Qed.

Lemma standing_together_witness :
  Sys.gravity
    (Sys.mkState (mkWorld [byteAt 0 "x"%byte] [] [] [] [(pause, true)])
       (Sys.FRead Sys.AtPause) Sys.GPaused initialDropRate)
  = Sys.GPaused /\
  Sys.step Sys.Timer
    (Sys.mkState (mkWorld [byteAt 0 "x"%byte] [] [] [] [(pause, true)])
       (Sys.FRead Sys.AtPause) Sys.GPaused initialDropRate)
  = None.
Proof.
  apply (proj1 (proj2 (standing_together
           (fresh [byteAt 0 "p"; byteAt 0 "x"]%byte)
           (Sys.mkState (mkWorld [byteAt 0 "x"%byte] [] [] [] [(pause, true)])
              (Sys.FRead Sys.AtPause) Sys.GPaused initialDropRate)
           (ex_intro _ [Sys.Forward; Sys.Forward; Sys.Sync pause] eq_refl)))).
  left. reflexivity.
Defined.

(** *** What the world goes through *)

Lemma evolves_refl (w : World) : evolves w w.
Proof.
  split; [exists []; reflexivity|]. split; [exists []; reflexivity|].
  exists []. rewrite app_nil_r. split; [reflexivity|constructor].
Qed.

Lemma evolves_same (w0 w w' : World) :
  evolves w0 w ->
  stdin w' = stdin w -> fates w' = fates w -> stderr w' = stderr w ->
  evolves w0 w'.
Proof. unfold evolves. intros H -> -> ->. exact H. Qed.

Lemma evolves_read (w0 w : World) (a : arrival) (rest : list arrival) :
  evolves w0 w -> stdin w = a :: rest -> evolves w0 (set_stdin rest w).
Proof.
  intros ((ti & Hi) & Hf & He) Hin. split; [|split; assumption].
  exists (ti ++ [a]). rewrite Hi, Hin, <- app_assoc. reflexivity.
Qed.

Lemma evolves_print (w0 w : World) (err : error) :
  evolves w0 w -> reported w0 err -> evolves w0 (Fprintln err w).
Proof.
  intros (Hi & Hf & (log & He & Hl)) Hr. split; [exact Hi|].
  split; [exact Hf|]. exists (log ++ [err]). simpl. split.
  - rewrite He, app_assoc. reflexivity.
  - apply Forall_app. split; [exact Hl|]. constructor; [exact Hr|constructor].
Qed.

Lemma evolves_writeByte (w0 w : World) (b : byte) :
  evolves w0 w -> evolves w0 (snd (writeByte b w)).
Proof.
  intros (Hi & (tf & Hf) & (log & He & Hl)).
  unfold writeByte, writeOut, Write.
  destruct (fates w) as [|[err|] f] eqn:Ef; simpl.
  - split; [exact Hi|]. split; [exists tf; exact Hf|]. exists log. auto.
  - assert (Hsuf : exists tried, fates w0 = tried ++ f).
    { exists (tf ++ [Some err]). rewrite Hf, <- app_assoc. reflexivity. }
    destruct (brokenPipe err) eqn:Eb; simpl.
    + split; [exact Hi|]. split; [exact Hsuf|]. exists log. auto.
    + split; [exact Hi|]. split; [exact Hsuf|]. exists (log ++ [err]). split.
      * rewrite He, app_assoc. reflexivity.
      * apply Forall_app. split; [exact Hl|].
        constructor; [|constructor]. right. split.
        -- rewrite Hf. apply in_or_app. right. left. reflexivity.
        -- intros Hb. rewrite (brokenPipe_true err Hb) in Eb. discriminate.
  - split; [exact Hi|]. split; [|exists log; auto].
    exists (tf ++ [None]). rewrite Hf, <- app_assoc. reflexivity.
Qed.

Lemma evolves_quit (w0 w : World) (err : error) :
  evolves w0 w ->
  err = io_EOF \/ In (inr err) (map item (stdin w0)) ->
  evolves w0 (snd (quit err w)).
Proof.
  intros Hw Herr. unfold quit. apply evolves_writeByte.
  destruct (error_eqb err io_EOF) eqn:E; simpl; [exact Hw|].
  apply evolves_print; [exact Hw|]. left.
  assert (Hne : err <> io_EOF)
    by (intros ->; simpl in E; discriminate E).
  destruct Herr as [->|Hin]; [congruence|]. split; assumption.
Qed.

Lemma evolves_gotKey (w0 w : World) (k : byte) :
  evolves w0 w -> evolves w0 (snd (Sys.gotKey k w)).
Proof.
  intros Hw. unfold Sys.gotKey.
  pose proof (evolves_writeByte w0 w k Hw) as H.
  destruct (writeByte k w) as [[|] w']; exact H.
Qed.

Lemma evolves_gotErr (w0 w : World) (err : error) :
  evolves w0 w ->
  err = io_EOF \/ In (inr err) (map item (stdin w0)) ->
  evolves w0 (snd (Sys.gotErr err w)).
Proof.
  intros Hw Herr. unfold Sys.gotErr.
  pose proof (evolves_quit w0 w err Hw Herr) as H.
  destruct (quit err w) as [[|] w']; simpl in *; [|exact H].
  eapply evolves_same; [exact H| | |]; reflexivity.
Qed.

Lemma evolves_step (w0 : World) (m : Sys.move) (s s' : Sys.State) :
  evolves w0 (Sys.world s) -> Sys.step m s = Some s' ->
  evolves w0 (Sys.world s').
Proof.
  destruct s as [w f g d]. simpl. intros Hw. unfold Sys.step. simpl.
  destruct g; try discriminate; destruct m as [| |[|]];
    unfold Sys.forwardStep, Sys.timerStep, Sys.doneStep, Sys.pauseStep; simpl;
    try (destruct f as [|at_|v| | | |]; try discriminate;
         try (intros H; injection H as <-; simpl;
              first [exact Hw
                    |eapply evolves_same; [exact Hw| | |]; reflexivity]));
    try (unfold drop;
         pose proof (evolves_writeByte w0 w "k"%byte Hw) as Hk;
         destruct (writeByte "k" w) as [[|] w']; simpl;
         intros H; injection H as <-; exact Hk).
  all: destruct (Sys.read at_ w) as [[pc w']|] eqn:R; [|discriminate];
    intros H; injection H as <-; simpl; apply read_cases in R;
    inversion R as [k a rest Hin Hk Hat E|e a rest Hin Ha E|a rest Hin Hat E
                   |Hat E|at' a rest Hin Hat E|a rest Hin E]; subst.
  all: try (change w' with (snd (pc, w')); rewrite <- E).
  all: try (apply evolves_gotKey; eapply evolves_read; eassumption).
  all: try (apply evolves_gotErr;
            [first [eapply evolves_read; eassumption|exact Hw]
            |first [left; reflexivity|idtac]]).
  all: try (eapply evolves_read; eassumption).
  all: try (eapply evolves_same;
            [eapply evolves_read; eassumption| | |]; reflexivity).
  all: right; destruct Hw as ((ti & Hi) & _); rewrite Hi, Hin, map_app;
    apply in_or_app; right; left; exact Ha.
Qed.

(** X10: in every run the input is read in order and the writes are tried
    in order, and every line on standard error is a read error of the
    input other than [io.EOF] or the error of a write other than the
    broken pipe: [io.EOF], a quit key, a timed-out ESC and a broken pipe
    are never printed. *)
Theorem world_evolves (w : World) (s : Sys.State) :
  Sys.reachable w s -> evolves w (Sys.world s).
Proof.
  intros (ms & H).
  eapply (run_invariant (fun s => evolves w (Sys.world s)));
    [intros m s1 s2; apply evolves_step| |exact H].
  apply evolves_refl.
Qed.

Lemma world_evolves_witness :
  evolves
    (mkWorld [byteAt 0 "i"%byte; errAt 0 (errorString "input/output error")]
       [None; Some (PathError "write" "/dev/stdout" (Errno 5))] [] [] [])
    (mkWorld [] [] ["i"%byte]
       [errorString "input/output error";
        PathError "write" "/dev/stdout" (Errno 5)]
       [(done, true)]).
Proof.
  apply (world_evolves
           (mkWorld [byteAt 0 "i"%byte;
                     errAt 0 (errorString "input/output error")]
              [None; Some (PathError "write" "/dev/stdout" (Errno 5))] [] [] [])
           (Sys.mkState
              (mkWorld [] [] ["i"%byte]
                 [errorString "input/output error";
                  PathError "write" "/dev/stdout" (Errno 5)]
                 [(done, true)])
              Sys.FDoneEsc Sys.GSelect initialDropRate)).
  exists [Sys.Forward; Sys.Forward; Sys.Forward; Sys.Forward]. reflexivity.
Defined.

(** *** While every write succeeds *)

Lemma allSucceed_evolves (w w' : World) :
  allSucceed w -> evolves w w' -> allSucceed w'.
Proof.
  unfold allSucceed. intros H (_ & (tf & Hf) & _). rewrite Hf in H.
  apply Forall_app in H. exact (proj2 H).
Qed.

Lemma writeByte_succeeds (b : byte) (w : World) :
  allSucceed w -> fst (writeByte b w) = true.
Proof.
  unfold allSucceed. intros H. rewrite writeByte_fate.
  destruct (fates w) as [|[e|] f]; try reflexivity.
  inversion H; discriminate.
Qed.

Lemma gotKey_calm (k : byte) (w : World) :
  allSucceed w -> fst (Sys.gotKey k w) = Sys.FSelect.
Proof.
  intros H. unfold Sys.gotKey. pose proof (writeByte_succeeds k w H) as Hk.
  destruct (writeByte k w) as [[|] w']; [reflexivity|discriminate].
Qed.

Lemma gotErr_calm (err : error) (w : World) :
  allSucceed w -> fst (Sys.gotErr err w) = Sys.FDone.
Proof.
  intros H. unfold Sys.gotErr, quit.
  set (w1 := if negb (error_eqb err io_EOF) then Fprintln err w else w).
  assert (H1 : allSucceed w1) by (unfold w1; destruct (negb _); exact H).
  pose proof (writeByte_succeeds ESC w1 H1) as Hk.
  destruct (writeByte ESC w1) as [[|] w']; [reflexivity|discriminate].
Qed.

Lemma togetherCalm_step (m : Sys.move) (s s' : Sys.State) :
  allSucceed (Sys.world s) ->
  togetherCalm (Sys.forwarding s) (Sys.gravity s) = true ->
  Sys.step m s = Some s' ->
  togetherCalm (Sys.forwarding s') (Sys.gravity s') = true.
Proof.
  destruct s as [w f g d]. simpl. intros Hw Ht. unfold Sys.step. simpl.
  destruct m as [| |[|]].
  - unfold Sys.forwardStep. simpl.
    destruct f as [|at_|v| | | |];
      try (destruct g; discriminate).
    + destruct g; try discriminate; intros H; injection H as <-; reflexivity.
    + destruct (Sys.read at_ w) as [[pc w']|] eqn:R;
        [|destruct g; discriminate].
      apply read_cases in R.
      assert (Hset : forall l, allSucceed (set_stdin l w)) by (intros l; exact Hw).
      assert (H' : togetherCalm pc g = true).
      { inversion R as [k a rest Hin Hk Hat E|e a rest Hin Ha E|a rest Hin Hat E
                       |Hat E|at' a rest Hin Hat E|a rest Hin E].
        - pose proof (gotKey_calm k (set_stdin rest w) (Hset rest)) as Hp.
          rewrite E in Hp; simpl in Hp; subst pc;
            destruct at_, g; try discriminate; try reflexivity; congruence.
        - pose proof (gotErr_calm e (set_stdin rest w) (Hset rest)) as Hp.
          rewrite E in Hp; simpl in Hp; subst pc;
            destruct at_, g; try discriminate; reflexivity.
        - pose proof (gotErr_calm io_EOF (set_stdin rest w) (Hset rest)) as Hp.
          rewrite E in Hp; simpl in Hp; subst pc;
            destruct at_, g; try discriminate; try reflexivity; congruence.
        - pose proof (gotErr_calm io_EOF w Hw) as Hp.
          rewrite E in Hp; simpl in Hp; subst pc at_;
            destruct g; try discriminate; reflexivity.
        - subst. destruct at_, at', g; try discriminate; try reflexivity;
            destruct Hat as [H1 H2];
            try (specialize (H1 eq_refl); discriminate);
            try (specialize (H2 eq_refl); discriminate).
        - subst. destruct at_, g; try discriminate; reflexivity. }
      destruct g; try discriminate; intros H; injection H as <-; exact H'.
  - unfold Sys.timerStep, drop. simpl. destruct g; try discriminate.
    pose proof (writeByte_succeeds "k"%byte w Hw) as Hk.
    destruct (writeByte "k" w) as [[|] w']; [|discriminate]. simpl.
    intros H; injection H as <-. exact Ht.
  - unfold Sys.doneStep. simpl.
    destruct g, f as [|[]|[]| | | |]; try discriminate;
      intros H; injection H as <-; reflexivity.
  - unfold Sys.pauseStep. simpl.
    destruct g, f as [|[]|[]| | | |]; try discriminate;
      intros H; injection H as <-; reflexivity.
Qed.

Lemma calm_reachable (w : World) (s : Sys.State) :
  allSucceed w -> Sys.reachable w s ->
  allSucceed (Sys.world s) /\
  togetherCalm (Sys.forwarding s) (Sys.gravity s) = true.
Proof.
  intros Hw (ms & H).
  refine (run_invariant
            (fun s => allSucceed (Sys.world s) /\
                      togetherCalm (Sys.forwarding s) (Sys.gravity s) = true)
            _ ms (Sys.init w) s (conj Hw eq_refl) H).
  intros m s1 s2 (Ha & Ht) E. split.
  - pose proof (evolves_step (Sys.world s1) m s1 s2 (evolves_refl _) E) as Hev.
    eapply allSucceed_evolves; eassumption.
  - eapply togetherCalm_step; eassumption.
Qed.

(** X11: while every write succeeds the program can hang in a pause only:
    a state of a run in which nothing can move and [main] has not
    returned is one where [main] is in the receive of line 87 and
    goroutine A is either in the send of line 63, after a read error in
    the pause loop, or in the read of line 130 with no input left; and
    every such state is one where nothing can move. *)
Theorem hangs_only_in_pause (w : World) (s : Sys.State) :
  allSucceed w -> Sys.reachable w s ->
  (Sys.deadlocked s <->
   Sys.gravity s = Sys.GPaused /\
   (Sys.forwarding s = Sys.FDone \/
    (Sys.forwarding s = Sys.FRead Sys.AtPause /\ stdin (Sys.world s) = []))).
Proof.
  intros Hw Hr. destruct (calm_reachable w s Hw Hr) as (Ha & Ht).
  destruct s as [w' f g d]. simpl in *. split.
  - intros (Hg & Hdead). simpl in Hg.
    destruct g; try congruence.
    + specialize (Hdead Sys.Timer). unfold Sys.step, Sys.timerStep in Hdead.
      simpl in Hdead. destruct (drop d w') as [[go d'] w'']. discriminate.
    + split; [reflexivity|].
      destruct f as [|[]|[]| | | |]; try discriminate.
      * right. split; [reflexivity|].
        specialize (Hdead Sys.Forward).
        unfold Sys.step, Sys.forwardStep, Sys.read in Hdead. simpl in Hdead.
        destruct (stdin w') as [|a rest]; [reflexivity|].
        destruct (item a) as [b|err]; [destruct (isPauseKey b)|];
          try discriminate.
        destruct (Sys.gotErr err _). discriminate.
      * specialize (Hdead (Sys.Sync pause)). discriminate.
      * left. reflexivity.
    + destruct f as [|[]|[]| | | |]; discriminate.
  - intros (-> & [-> | (-> & Hin)]).
    + split; [discriminate|]. intros [| |[|]]; reflexivity.
    + split; [discriminate|]. intros [| |[|]]; try reflexivity.
      unfold Sys.step, Sys.forwardStep, Sys.read. simpl. rewrite Hin.
      reflexivity.
Qed.

Lemma hangs_only_in_pause_witness :
  Sys.deadlocked
    (Sys.mkState (mkWorld [] [] [ESC] [] [(pause, true); (done, true)])
       Sys.FDone Sys.GPaused initialDropRate).
Proof.
  apply (proj2 (hangs_only_in_pause
           (fresh [byteAt 0 "p"%byte; errAt 0 io_EOF])
           (Sys.mkState (mkWorld [] [] [ESC] [] [(pause, true); (done, true)])
              Sys.FDone Sys.GPaused initialDropRate)
           (Forall_nil _)
           (ex_intro _ [Sys.Forward; Sys.Forward; Sys.Sync pause; Sys.Forward]
              eq_refl))).
  split; [reflexivity|left; reflexivity].
Defined.

(** *** The interval *)

Lemma nextDropRate_ms (n : nat) :
  (n <= 1000)%nat ->
  exists n', (n' <= 1000)%nat /\
             nextDropRate (Z.of_nat n * Millisecond) = Z.of_nat n' * Millisecond.
Proof.
  intros Hn. unfold nextDropRate, finalDropRate, dropRateDelta, Millisecond,
    Microsecond. rewrite Z.gtb_ltb.
  destruct (Z.ltb_spec (400 * 1000) (Z.of_nat n * (1000 * 1000))).
  - exists (n - 1)%nat. split; [lia|]. rewrite int64_small; lia.
  - exists n. split; [lia|reflexivity].
Qed.

Lemma dropRate_step (m : Sys.move) (s s' : Sys.State) :
  Sys.step m s = Some s' ->
  Sys.dropRate s'
  = match m with
    | Sys.Timer =>
        if fst (writeByte "k" (Sys.world s))
        then nextDropRate (Sys.dropRate s) else Sys.dropRate s
    | _ => Sys.dropRate s
    end.
Proof.
  destruct s as [w f g d]. unfold Sys.step. simpl.
  destruct m as [| |[|]].
  - unfold Sys.forwardStep. simpl.
    destruct g; try discriminate;
      destruct f as [|at_|v| | | |]; try discriminate;
      try (intros H; injection H as <-; reflexivity);
      (destruct (Sys.read at_ w) as [[pc w']|]; [|discriminate]);
      intros H; injection H as <-; reflexivity.
  - unfold Sys.timerStep, drop. simpl. destruct g; try discriminate.
    destruct (writeByte "k" w) as [[|] w']; simpl;
      intros H; injection H as <-; reflexivity.
  - unfold Sys.doneStep. simpl.
    destruct g, f as [|at_|v| | | |]; try discriminate;
      intros H; injection H as <-; reflexivity.
  - unfold Sys.pauseStep. simpl.
    destruct g, f as [|at_|v| | | |]; try discriminate;
      intros H; injection H as <-; reflexivity.
Qed.

(** X12: in every run, whatever the input, the writes and the schedule,
    [dropRate] is a whole number of milliseconds between 0 and 1000: it
    never goes below zero and never rises. *)
Theorem dropRate_whole_ms (w : World) (s : Sys.State) :
  Sys.reachable w s ->
  exists n : nat, (n <= 1000)%nat /\ Sys.dropRate s = Z.of_nat n * Millisecond.
Proof.
  intros (ms & H).
  refine (run_invariant
            (fun s => exists n : nat, (n <= 1000)%nat /\
                      Sys.dropRate s = Z.of_nat n * Millisecond)
            _ ms (Sys.init w) s _ H).
  - intros m s1 s2 (n & Hn & Hd) E.
    rewrite (dropRate_step m s1 s2 E).
    destruct m as [| |c]; try (exists n; split; [exact Hn|exact Hd]).
    destruct (fst (writeByte "k" (Sys.world s1)));
      [|exists n; split; [exact Hn|exact Hd]].
    rewrite Hd. apply nextDropRate_ms, Hn.
  - exists 1000%nat. split; [lia|reflexivity].
Qed.

Lemma dropRate_whole_ms_witness :
  exists n : nat, (n <= 1000)%nat /\ 998 * Millisecond = Z.of_nat n * Millisecond.
Proof.
  apply (dropRate_whole_ms
           (mkWorld [] [None; None; Some (errorString "input/output error")]
              [] [] [])
           (Sys.mkState
              (mkWorld [] [] ["k"; "k"]%byte
                 [errorString "input/output error"] [(done, true)])
              Sys.FSelect Sys.GDone (998 * Millisecond))).
  exists [Sys.Timer; Sys.Timer; Sys.Timer]. reflexivity.
Defined.

Lemma dropRate_calm_run (ms : list Sys.move) :
  forall s s', allSucceed (Sys.world s) -> Sys.run ms s = Some s' ->
               Sys.dropRate s' = Nat.iter (timers ms) nextDropRate (Sys.dropRate s).
Proof.
  induction ms as [|m ms IH]; intros s s' Hw; simpl.
  - intros H; injection H as <-; reflexivity.
  - destruct (Sys.step m s) as [s1|] eqn:E; [|discriminate].
    intros H.
    assert (Hw1 : allSucceed (Sys.world s1)).
    { eapply allSucceed_evolves; [exact Hw|].
      eapply evolves_step; [apply evolves_refl|exact E]. }
    rewrite (IH s1 s' Hw1 H), (dropRate_step m s s1 E).
    destruct m as [| |c]; try reflexivity.
    rewrite (writeByte_succeeds "k"%byte _ Hw).
    unfold timers. simpl. rewrite <- Nat.iter_succ_r. reflexivity.
Qed.

(** X13: while every write succeeds, [dropRate] depends on the number of
    drops alone: after a run in which the timer fired [n] times it is
    [max (1000 - n, 0)] milliseconds, whatever keys were forwarded and
    whatever pauses were taken in between. *)
Theorem dropRate_counts_drops (w : World) (ms : list Sys.move) (s : Sys.State) :
  allSucceed w -> Sys.run ms (Sys.init w) = Some s ->
  Sys.dropRate s = Z.max ((1000 - Z.of_nat (timers ms)) * Millisecond) 0.
Proof.
  intros Hw H. rewrite (dropRate_calm_run ms (Sys.init w) s Hw H). simpl.
  apply dropRate_closed_form.
Qed.

Lemma dropRate_counts_drops_witness :
  Sys.dropRate
    (Sys.mkState
       (mkWorld [] [] ["k"; "k"; "i"]%byte [] [(pause, true); (pause, false)])
       Sys.FSelect Sys.GSelect (998 * Millisecond))
  = Z.max ((1000 - 2) * Millisecond) 0.
Proof.
  apply (dropRate_counts_drops
           (fresh [byteAt 0 "p"; byteAt 0 "p"; byteAt 0 "w"]%byte)
           [Sys.Forward; Sys.Timer; Sys.Forward; Sys.Sync pause; Sys.Forward;
            Sys.Sync pause; Sys.Timer; Sys.Forward]
           (Sys.mkState
              (mkWorld [] [] ["k"; "k"; "i"]%byte []
                 [(pause, true); (pause, false)])
              Sys.FSelect Sys.GSelect (998 * Millisecond))).
  - constructor.
  - reflexivity.
Defined.
